(** * youtube_link_extractor: matching engine and resumable pipeline

    A shallow embedding of [data_helpers.py], [extraction_helpers.py] and
    [main.py].

    - Python text is a list of Unicode code points ([str]).
    - Python floats are the kernel's binary64 floats, so that sums such as
      [dist += 1/len(token_short)] round as they do in CPython.
    - A track is the Python [dict] it is in the source: a [gmap] from column
      names to values; a missing key raises [KeyError].
    - The external world (YouTube search, youtube_dl, the clock) is an oracle
      indexed by a call counter, threaded through the state. *)

From Stdlib Require Import Floats ZArith NArith Strings.String Strings.Ascii List Bool Lia.
From Stdlib Require Import Sorting.Permutation.
From stdpp Require Import base option list gmap strings.

Set Default Proof Using "Type".

(* ================================================================== *)
(** * Text *)

(** A Python [str]: its code points, in order. *)
Abbreviation str := (list N).

(** An ASCII literal of the source as a [str]. *)
Definition text (s : string) : str :=
  List.map (fun a => N.of_nat (nat_of_ascii a)) (list_ascii_of_string s).

Module Char.
Local Open Scope N_scope.

Definition space : N := 32.
Definition newline : N := 10.

Definition in_range (lo hi c : N) : bool := (lo <=? c) && (c <=? hi).

Definition is_ascii (c : N) : bool := c <? 128.
Definition is_upper (c : N) : bool := in_range 65 90 c.
Definition is_lower (c : N) : bool := in_range 97 122 c.
Definition is_digit (c : N) : bool := in_range 48 57 c.

(** The five ranges of [cjk_detect], which the character class of [cs]
    repeats. *)
Definition is_korean (c : N) : bool := in_range 0xAC00 0xD7A3 c.
Definition is_japanese (c : N) : bool := in_range 0x3040 0x30FF c.
Definition is_chinese (c : N) : bool := in_range 0x4E00 0x9FFF c.
Definition is_cyrillic (c : N) : bool := in_range 0x0400 0x04FF c.
Definition is_thai (c : N) : bool := in_range 0x0E00 0x0E7F c.

(** [str.isspace] of one code point: what [str.split()] and [str.strip()]
    treat as whitespace. *)
Definition isspace (c : N) : bool :=
  in_range 9 13 c || in_range 28 32 c || (c =? 0x85) || (c =? 0xA0)
  || (c =? 0x1680) || in_range 0x2000 0x200A c || (c =? 0x2028)
  || (c =? 0x2029) || (c =? 0x202F) || (c =? 0x205F) || (c =? 0x3000).

Definition ascii_lower (c : N) : N := if is_upper c then c + 32 else c.
End Char.

(** The part of Python's Unicode tables that the program consults and this
    file does not spell out: lower-casing, canonical decomposition and the
    general category [Mn], each on text that is not pure ASCII.  On ASCII the
    three are written out below. *)
Class UnicodeData := {
  unicode_lower : str -> str;
  unicode_nfd : str -> str;
  unicode_is_Mn : N -> bool;
}.

(** A table that changes nothing, for running the model on ASCII data, where
    the tables are never consulted. *)
Definition ascii_only : UnicodeData :=
  {| unicode_lower := fun s => s; unicode_nfd := fun s => s; unicode_is_Mn := fun _ => false |}.

Section Text.
Context {U : UnicodeData}.

Definition all_ascii (s : str) : bool := forallb Char.is_ascii s.

(** [s.lower()] *)
Definition str_lower (s : str) : str :=
  if all_ascii s then List.map Char.ascii_lower s else unicode_lower s.

(** [unicodedata.normalize('NFD', s)] *)
Definition normalize_NFD (s : str) : str :=
  if all_ascii s then s else unicode_nfd s.

(** [unicodedata.category(c) == 'Mn'] *)
Definition category_is_Mn (c : N) : bool :=
  if Char.is_ascii c then false else unicode_is_Mn c.
End Text.

(* ================================================================== *)
(** * String methods and the regular expressions of [data_helpers.py] *)

Fixpoint drop_while (p : N -> bool) (s : str) : str :=
  match s with
  | [] => []
  | c :: r => if p c then drop_while p r else s
  end.

(** [s.strip()] *)
Definition str_strip (s : str) : str :=
  rev (drop_while Char.isspace (rev (drop_while Char.isspace s))).

(** [s.split()]: the maximal runs of non-whitespace; [cur] holds the run
    being read, last character first. *)
Fixpoint split_from (cur : str) (s : str) : list str :=
  match s with
  | [] => match cur with [] => [] | _ => [rev cur] end
  | c :: r =>
      if Char.isspace c
      then match cur with [] => split_from [] r | _ => rev cur :: split_from [] r end
      else split_from (c :: cur) r
  end.

Definition str_split (s : str) : list str := split_from [] s.

(** [sep.join(l)] *)
Fixpoint str_join (sep : str) (l : list str) : str :=
  match l with
  | [] => []
  | [x] => x
  | x :: r => x ++ sep ++ str_join sep r
  end.

(** [s.replace(a, b)] for one-character [a] and [b], and [re.sub(a, b, s)]
    for a one-character literal pattern. *)
Definition replace_char (a b : N) (s : str) : str :=
  List.map (fun c => if N.eqb c a then b else c) s.

(** One atom of the literal patterns of [cs]: a character, or [.], which
    matches any character but a newline. *)
Inductive atom := Lit (c : N) | Dot.

Definition atom_matches (a : atom) (c : N) : bool :=
  match a with
  | Lit x => N.eqb c x
  | Dot => negb (N.eqb c Char.newline)
  end.

(** The pattern matches at the start of [s]. *)
Fixpoint match_here (p : list atom) (s : str) : bool :=
  match p, s with
  | [], _ => true
  | _ :: _, [] => false
  | a :: p', c :: r => atom_matches a c && match_here p' r
  end.

(** [re.search(p, s) is not None] for such a pattern. *)
Fixpoint pattern_occurs (p : list atom) (s : str) : bool :=
  match_here p s || match s with [] => false | _ :: r => pattern_occurs p r end.

(** [re.sub(p, '', s)] for a non-empty pattern [p] of atoms: one pass from the
    left; a match is dropped and the scan resumes after it.  [skip] counts the
    characters of the current match still to drop. *)
Fixpoint delete_matches (p : list atom) (skip : nat) (s : str) : str :=
  match s with
  | [] => []
  | c :: r =>
      match skip with
      | S k => delete_matches p k r
      | O => if match_here p s
             then delete_matches p (Nat.pred (length p)) r
             else c :: delete_matches p 0 r
      end
  end.

Definition re_sub_delete (p : list atom) (s : str) : str := delete_matches p 0 s.

Definition literal (s : string) : list atom := List.map Lit (text s).

(** [re.sub('[class]+', ' ', s)]: every maximal run of characters of the
    class becomes one space.  [in_run] tells that the previous character was
    of the class. *)
Fixpoint squeeze (cls : N -> bool) (in_run : bool) (s : str) : str :=
  match s with
  | [] => []
  | c :: r =>
      if cls c
      then if in_run then squeeze cls true r else Char.space :: squeeze cls true r
      else c :: squeeze cls false r
  end.

Definition re_sub_runs (cls : N -> bool) (s : str) : str := squeeze cls false s.

Definition is_open (c : N) : bool := N.eqb c 40 || N.eqb c 91.   (* ( [ *)
Definition is_close (c : N) : bool := N.eqb c 41 || N.eqb c 93.  (* ) ] *)

(** For the lazy [.*?[\)\]]]: the number of characters up to and including
    the first closing bracket, provided no newline comes before it. *)
Fixpoint close_offset (s : str) : option nat :=
  match s with
  | [] => None
  | c :: r =>
      if is_close c then Some 1%nat
      else if N.eqb c Char.newline then None
      else S <$> close_offset r
  end.

(** [re.sub("[\(\[].*?[\)\]]", " ", s)] *)
Fixpoint blank_spans (skip : nat) (s : str) : str :=
  match s with
  | [] => []
  | c :: r =>
      match skip with
      | S k => blank_spans k r
      | O =>
          if is_open c
          then match close_offset r with
               | Some n => Char.space :: blank_spans n r
               | None => c :: blank_spans 0 r
               end
          else c :: blank_spans 0 r
      end
  end.

Definition re_sub_spans (s : str) : str := blank_spans 0 s.

(* ================================================================== *)
(** * data_helpers.py: script detection *)

(** [cjk_detect]: the script of the first of the five ranges, in the order
    Korean, Japanese, Chinese, Cyrillic, Thai, that has a character in
    [texts]. *)
Definition cjk_detect (texts : str) : option string :=
  if existsb Char.is_korean texts then Some "ko"
  else if existsb Char.is_japanese texts then Some "ja"
  else if existsb Char.is_chinese texts then Some "zh"
  else if existsb Char.is_cyrillic texts then Some "cy"
  else if existsb Char.is_thai texts then Some "th"
  else None.

(* ================================================================== *)
(** * data_helpers.py: the normalizer *)

Section Normalizer.
Context {U : UnicodeData}.

(** [remove_accents] *)
Definition remove_accents (s : str) : str :=
  List.filter (fun c => negb (category_is_Mn c)) (normalize_NFD s).

(** [ct]: clean title. *)
Definition ct (input_str : str) : str :=
  let clean_str := input_str in
  let clean_str := re_sub_spans clean_str in
  let clean_str := re_sub_runs (N.eqb Char.space) clean_str in
  let clean_str := str_strip clean_str in
  clean_str.

(** The character class of the last substitution of [cs], whose
    complement is blanked: ASCII letters and digits, the space, and the
    five ranges of [cjk_detect]. *)
Definition kept_class (c : N) : bool :=
  Char.is_upper c || Char.is_lower c || Char.is_digit c || N.eqb c Char.space
  || Char.in_range 0xAC00 0xD7A3 c || Char.in_range 0x3040 0x30FF c
  || Char.in_range 0x4E00 0x9FFF c || Char.in_range 0x0400 0x04FF c
  || Char.in_range 0x0E00 0x0E7F c.

Definition pat_featurering : list atom := literal "featurering".
Definition pat_feature : list atom := literal "feature".
Definition pat_feat : list atom := literal "feat" ++ [Dot].
Definition pat_ft : list atom := literal "ft" ++ [Dot].

(** [cs]: clean string. *)
Definition cs (input_str : str) : str :=
  let clean_str := input_str in
  let clean_str := str_lower clean_str in
  let clean_str := re_sub_spans clean_str in
  let clean_str := replace_char 91 Char.space clean_str in
  let clean_str := replace_char 93 Char.space clean_str in
  let clean_str := replace_char 40 Char.space clean_str in
  let clean_str := replace_char 41 Char.space clean_str in
  let clean_str := replace_char 47 Char.space clean_str in
  let clean_str := replace_char 38 Char.space clean_str in
  let clean_str := remove_accents clean_str in
  let clean_str := re_sub_delete pat_featurering clean_str in
  let clean_str := re_sub_delete pat_feature clean_str in
  let clean_str := re_sub_delete pat_feat clean_str in
  let clean_str := re_sub_delete pat_ft clean_str in
  let clean_str := re_sub_runs (fun c => negb (kept_class c)) clean_str in
  let clean_str := re_sub_runs (N.eqb Char.space) clean_str in
  let clean_str := str_strip clean_str in
  clean_str.
End Normalizer.

(* ================================================================== *)
(** * Numbers *)

(** Python's [float] is binary64.  An [int] that meets a float in the source
    ([1/len(...)], [dist = 0], [confidence_score = 0]) is taken at its float
    value, which is exact for the small integers involved. *)
Module Py.
Definition of_Z (z : Z) : float :=
  match z with
  | Z0 => 0%float
  | Zpos _ => PrimFloat.of_uint63 (Uint63.of_Z z)
  | Zneg _ => (- PrimFloat.of_uint63 (Uint63.of_Z (- z)))%float
  end.

Definition of_nat (n : nat) : float := of_Z (Z.of_nat n).

(** Round half to even of the rational [num / den], [den > 0]. *)
Definition round_half_even (num den : Z) : Z :=
  let q := (num / den)%Z in
  let r := (num mod den)%Z in
  match (2 * r ?= den)%Z with
  | Lt => q
  | Gt => (q + 1)%Z
  | Eq => if Z.even q then q else (q + 1)%Z
  end.

(** [round(x, 2)] on a float, as CPython computes it: the exact value of
    [x] is rounded half-even to two decimals and the decimal is read back
    as the nearest float.  Zeros, infinities and NaN round to themselves;
    from [2^46] on the floats are more than 0.01 apart and [x] is the
    nearest float to its own two-decimal rounding. *)
Definition round2 (x : float) : float :=
  match Prim2SF x with
  | S754_finite s m e =>
      if (abs x <? 0x1p46)%float
      then
        let d := if (0 <=? e)%Z
                 then (Zpos m * 2 ^ e * 100)%Z
                 else round_half_even (Zpos m * 100) (2 ^ (- e)) in
        let y := (of_Z d / 100)%float in
        if s then (- y)%float else y
      else x
  | _ => x
  end.

(** The literal [0.8]: the nearest float, 0.8000000000000000444. *)
Definition early_exit : float := 0x1.999999999999ap-1%float.
End Py.

(* ================================================================== *)
(** * data_helpers.py: the asymmetric distance *)

Definition str_eqb (a b : str) : bool := bool_decide (a = b).

(** [re.search(token, str_long)] for a token without regular-expression
    metacharacters: [token] occurs in [str_long] as a contiguous run.  The
    program passes tokens of [cs] results only, which hold letters, digits,
    the space and characters of the five ranges. *)
Definition re_search (token str_long : str) : bool :=
  pattern_occurs (List.map Lit token) str_long.

(** Lines 157-165: the token list the loop runs over. *)
Definition short_tokens (str_short : str) : list str :=
  let token_short := str_split str_short in
  let to_be_joined := List.filter (fun x => Nat.eqb (length x) 1) token_short in
  let token_short :=
    List.filter (fun x => negb (existsb (str_eqb x) to_be_joined)) token_short in
  if Nat.ltb 0 (length to_be_joined)
  then token_short ++ [str_join (text " ") to_be_joined]
  else token_short.

(** One turn of the loop of lines 170-176 on [(dist, str_best_list)]. *)
Definition distance_step (n : nat) (str_long : str) (acc : float * list str) (token : str)
  : float * list str :=
  let '(dist, str_best_list) := acc in
  if negb (re_search token str_long)
  then ((dist + 1 / Py.of_nat n)%float, str_best_list)
  else (dist, str_best_list ++ [token]).

(** [get_asymmetric_token_distance] *)
Definition get_asymmetric_token_distance (str_short str_long : str) : float * str :=
  let token_short := short_tokens str_short in
  let '(dist, str_best_list) :=
    fold_left (distance_step (length token_short) str_long) token_short (0%float, []) in
  (dist, str_join (text " ") str_best_list).

(* ================================================================== *)
(** * Tracks, exceptions, the log and the outside world *)

(** A value of a track's column. *)
Inductive Val :=
  | VStr (s : str)
  | VFloat (x : float)
  | VInt (z : Z).

(** A track: the [dict] that [build_dataframe] makes of one row and that
    [extract_youtube_link] fills in place. *)
Abbreviation track := (gmap string Val).

Inductive exn :=
  | KeyError (key : string)
  | TypeError
  | ZeroDivisionError
  | ValueError
  | FileNotFoundError
  | ExternalError (code : nat)       (* raised by a search or a metadata fetch *)
  | RetryError (last : exn).         (* tenacity, once the attempts are used up *)

Inductive level := INFO | ERROR.

(** The messages the program logs, by their format string. *)
Inductive message :=
  | MsgStarting
  | MsgLoading
  | MsgFound (n_files : nat)
  | MsgCannotResume                  (* "Output file {} does not exist. Cannot resume." *)
  | MsgWriting
  | MsgProcessing (n_tracks : nat)
  | MsgProcessed (n_tracks : nat) (seconds per_track : float)
  | MsgNoDuration
  | MsgCannotAddTitle
  | MsgCannotAddLongDesc
  | MsgCannotAddChannel
  | MsgException (err : exn)
  | MsgCount (count total : nat) (status : float)
  | MsgSucceededFailed (succeeded failed : nat).

Abbreviation log := (list (level * message)).

(** A field of a search result: missing, present but no text (for instance
    [None]), or text. *)
Inductive field := Absent | NotText | Text (s : str).

(** One entry of [YoutubeSearch(...).to_dict()]. *)
Record SearchResult := {
  url_suffix : str;
  title : field;
  long_desc : field;
  channel : field;
}.

(** [meta['duration']]: no such key, a value that is no number, or seconds. *)
Inductive duration_field := NoDuration | NotNumber | Seconds (d : Z).

(** What [ydl.extract_info] returns, as far as the program reads it:
    the duration entry and [str(meta)]. *)
Record Meta := {
  meta_duration : duration_field;
  meta_str : str;
}.

(** The outside world.  Every external call takes the number of external
    calls made before it, so that the same query may fail once and succeed
    later. *)
Record World := {
  youtube_search : nat -> str -> exn + list SearchResult;
  extract_info : nat -> str -> exn + Meta;
  perf_counter : nat -> float;
}.

(* ================================================================== *)
(** * extraction_helpers.py *)

(** What a call of [extract_youtube_link] works on: the track it mutates,
    the number of external calls made so far, and the log. *)
Record task := {
  t_track : track;
  t_calls : nat;
  t_log : log;
}.

(** A computation that may raise; the state survives the exception, as the
    mutated [dict] does. *)
Definition Task (A : Type) : Type := task -> (exn + A) * task.

Global Instance Task_ret : MRet Task := fun A (a : A) st => (inr a, st).

Global Instance Task_bind : MBind Task := fun A B (k : A -> Task B) (m : Task A) st =>
  match m st with
  | (inr a, st') => k a st'
  | (inl e, st') => (inl e, st')
  end.

Definition raise {A} (e : exn) : Task A := fun st => (inl e, st).

Definition logger (lv : level) (m : message) : Task unit := fun st =>
  (inr tt, {| t_track := t_track st; t_calls := t_calls st; t_log := t_log st ++ [(lv, m)] |}).

(** [track[key]] *)
Definition get_item (key : string) : Task Val := fun st =>
  match t_track st !! key with
  | Some v => (inr v, st)
  | None => (inl (KeyError key), st)
  end.

(** [track[key] = v] *)
Definition set_item (key : string) (v : Val) : Task unit := fun st =>
  (inr tt, {| t_track := <[key := v]> (t_track st); t_calls := t_calls st; t_log := t_log st |}).

(** [track[key]] where the source goes on to use it as text ([+ ' '], [cs]). *)
Definition get_text (key : string) : Task str :=
  v ← get_item key;
  match v with
  | VStr s => mret s
  | _ => raise TypeError
  end.

(** A value as the float a comparison takes it for. *)
Definition as_number (v : Val) : option float :=
  match v with
  | VFloat x => Some x
  | VInt z => Some (Py.of_Z z)
  | VStr _ => None
  end.

(** [track[key]] where the source compares it with a float. *)
Definition get_number (key : string) : Task float :=
  v ← get_item key;
  match as_number v with
  | Some x => mret x
  | None => raise TypeError
  end.

Section Extraction.
Context {U : UnicodeData} (w : World).

(** [YoutubeSearch(search_terms, max_results=n).to_dict()] *)
Definition YoutubeSearch (search_terms : str) (max_results : nat) : Task (list SearchResult) :=
  fun st =>
    let st' := {| t_track := t_track st; t_calls := S (t_calls st); t_log := t_log st |} in
    match youtube_search w (t_calls st) search_terms with
    | inr results => (inr (take max_results results), st')
    | inl e => (inl e, st')
    end.

(** [ydl.extract_info(youtube_url, download=False)] *)
Definition ydl_extract_info (youtube_url : str) : Task Meta := fun st =>
  let st' := {| t_track := t_track st; t_calls := S (t_calls st); t_log := t_log st |} in
  match extract_info w (t_calls st) youtube_url with
  | inr meta => (inr meta, st')
  | inl e => (inl e, st')
  end.

Definition youtube_url_prefix : str := text "https://www.youtube.com".

(** Lines 60-64, 66-70 and 72-76: one guarded [meta += ...]. *)
Definition add_field (f : field) (tail : str) (on_error : message) (meta : str) : Task str :=
  match f with
  | Absent => mret meta
  | NotText => logger ERROR on_error ;; mret meta
  | Text s => mret (meta ++ s ++ tail)
  end.

(** What lines 43-99 compute for one search result. *)
Record scored := {
  youtube_url : str;
  artist_meta : str;
  artist_dist : float;
  song_name_meta : str;
  song_name_dist : float;
  check_official : bool;
  confidence_score : float;
}.

Definition score_result (result : SearchResult) : Task scored :=
  let youtube_url := youtube_url_prefix ++ url_suffix result in
  meta ← ydl_extract_info youtube_url;
  duration ← match meta_duration meta with
             | NoDuration => logger ERROR MsgNoDuration ;; mret (Some 0%Z)
             | NotNumber => mret None
             | Seconds d => mret (Some d)
             end;
  let meta := meta_str meta ++ text " " in
  meta ← add_field (title result) (text " ") MsgCannotAddTitle meta;
  meta ← add_field (long_desc result) (text " ") MsgCannotAddLongDesc meta;
  meta ← add_field (channel result) [] MsgCannotAddChannel meta;
  let meta := cs meta in
  artists ← get_text "artists";
  let '(artist_dist, artist_meta) := get_asymmetric_token_distance (cs artists) meta in
  song_name ← get_text "song_name";
  let '(song_name_dist, song_name_meta) :=
    get_asymmetric_token_distance (cs song_name) meta in
  let check_official := pattern_occurs (literal "official") meta in
  let confidence_score := (((1 - song_name_dist) + (1 - artist_dist)) / 2)%float in
  confidence_score ← match duration with
                     | None => raise TypeError        (* [None >= 15*60] *)
                     | Some d => mret (if (15 * 60 <=? d)%Z then 0%float else confidence_score)
                     end;
  mret {| youtube_url := youtube_url;
          artist_meta := artist_meta; artist_dist := artist_dist;
          song_name_meta := song_name_meta; song_name_dist := song_name_dist;
          check_official := check_official;
          confidence_score := confidence_score |}.

(** The condition of line 102. *)
Definition is_better (res_idx : nat) (c : scored) : Task bool :=
  if Nat.eqb res_idx 0 then mret true
  else
    best ← get_number "youtube_url_confidence";
    mret (best <? confidence_score c)%float.

(** Lines 103-116. *)
Definition store (res_idx : nat) (c : scored) : Task unit :=
  set_item "metadata_artist" (VStr (artist_meta c)) ;;
  set_item "artist_dist" (VFloat (artist_dist c)) ;;
  set_item "metadata_song_name" (VStr (song_name_meta c)) ;;
  set_item "song_name_dist" (VFloat (song_name_dist c)) ;;
  set_item "youtube_url_confidence" (VFloat (confidence_score c)) ;;
  (if check_official c then set_item "official" (VStr (text "TRUE")) else mret tt) ;;
  set_item "youtube_url" (VStr (youtube_url c)) ;;
  set_item "result_idx" (VInt (Z.of_nat res_idx)).

(** Lines 102-116: store the result if it is the first or the better one. *)
Definition keep_best (res_idx : nat) (c : scored) : Task unit :=
  better ← is_better res_idx c;
  if better : bool then store res_idx c else mret tt.

(** The loop of lines 41-120 from index [res_idx] on. *)
Fixpoint scan (res_idx : nat) (results : list SearchResult) : Task unit :=
  match results with
  | [] => mret tt
  | result :: rest =>
      c ← score_result result;
      keep_best res_idx c ;;
      best ← get_number "youtube_url_confidence";
      if (Py.early_exit <? best)%float then mret tt
      else scan (S res_idx) rest
  end.

(** [round(track["youtube_url_confidence"], 2)] *)
Definition round_item (v : Val) : Task Val :=
  match v with
  | VFloat x => mret (VFloat (Py.round2 x))
  | VInt z => mret (VInt z)
  | VStr _ => raise TypeError
  end.

(** The body of [extract_youtube_link]: one attempt. *)
Definition extract_youtube_link_once : Task bool :=
  artists ← get_text "artists";
  song_name ← get_text "song_name";
  let search_terms := artists ++ text " " ++ song_name ++ text " official" in
  results_1 ← YoutubeSearch search_terms 15;
  let search_terms := ct search_terms in
  results_2 ← YoutubeSearch search_terms 15;
  let results := results_1 ++ results_2 in
  set_item "search_terms" (VStr search_terms) ;;
  artists ← get_text "artists";
  set_item "cleaned_artist" (VStr (cs artists)) ;;
  song_name ← get_text "song_name";
  set_item "cleaned_song_name" (VStr (cs song_name)) ;;
  scan 0 results ;;
  best ← get_item "youtube_url_confidence";
  rounded ← round_item best;
  set_item "youtube_url_confidence" rounded ;;
  mret true.

(** [@retry(stop=stop_after_attempt(n))]: [more] further attempts are
    allowed after a failed one; when none is left the last exception is
    wrapped in [RetryError].  The waits between attempts change no state. *)
Fixpoint retrying {A} (more : nat) (f : Task A) : Task A := fun st =>
  match f st with
  | (inr a, st') => (inr a, st')
  | (inl e, st') =>
      match more with
      | O => (inl (RetryError e), st')
      | S k => retrying k f st'
      end
  end.

(** [extract_youtube_link], decorated: five attempts. *)
Definition extract_youtube_link : Task bool := retrying 4 extract_youtube_link_once.
End Extraction.

(** The module's global counters. *)
Record counters := {
  count : nat;
  total : nat;
  succeeded : nat;
  failed : nat;
}.

(** The state shared by the tasks of a run: the counters, the number of
    external calls made so far, and the log. *)
Record run := {
  r_counters : counters;
  r_calls : nat;
  r_log : log;
}.

(** [a / b] on two [int]s. *)
Definition int_truediv (a b : nat) : exn + float :=
  if Nat.eqb b 0 then inl ZeroDivisionError
  else inr (Py.of_nat a / Py.of_nat b)%float.

(** [x / n] for a float [x] and an [int] [n]. *)
Definition float_truediv (x : float) (n : nat) : exn + float :=
  if Nat.eqb n 0 then inl ZeroDivisionError
  else inr (x / Py.of_nat n)%float.

(** The state a task starts in: its track, and the calls and the log so far. *)
Definition task_of (tr : track) (st : run) : task :=
  {| t_track := tr; t_calls := r_calls st; t_log := r_log st |}.

Section Dispatch.
Context {U : UnicodeData} (w : World).

(** [perform_extraction(track, len_tracks)].  The lock makes lines 147-158
    one step.  The result is the exception that leaves the function, if
    any, the track as the call left it, and the new shared state. *)
Definition perform_extraction (tr : track) (len_tracks : nat) (st : run)
  : (exn + unit) * track * run :=
  let c := r_counters st in
  let total := len_tracks in
  let '(outcome, t) := extract_youtube_link w (task_of tr st) in
  let '(success, lg) :=
    match outcome with
    | inr success => (success, t_log t)
    | inl err => (false, t_log t ++ [(ERROR, MsgException err)])
    end in
  let count := S (count c) in
  let succeeded := if success then S (succeeded c) else succeeded c in
  let failed := if success then failed c else S (failed c) in
  let c' := {| count := count; total := total; succeeded := succeeded; failed := failed |} in
  if Nat.eqb (count mod 2) 0
  then
    match int_truediv (100 * count) total with
    | inl e => (inl e, t_track t, {| r_counters := c'; r_calls := t_calls t; r_log := lg |})
    | inr q =>
        let status := Py.round2 q in
        (inr tt, t_track t,
         {| r_counters := c'; r_calls := t_calls t;
            r_log := lg ++ [(INFO, MsgCount count total status);
                            (INFO, MsgSucceededFailed succeeded failed)] |})
    end
  else (inr tt, t_track t, {| r_counters := c'; r_calls := t_calls t; r_log := lg |}).

(** [pool.map(partial(perform_extraction, len_tracks=n), tracks)].  Each
    task touches its own track and, inside the lock, the shared counters;
    the tasks are run here one after the other, in the order of the list.
    An exception that leaves a task leaves [map]. *)
Fixpoint pool_map (len_tracks : nat) (tracks : list track) (st : run)
  : (exn + unit) * list track * run :=
  match tracks with
  | [] => (inr tt, [], st)
  | tr :: rest =>
      match perform_extraction tr len_tracks st with
      | (inr _, tr', st') =>
          let '(r, rest', st'') := pool_map len_tracks rest st' in
          (r, tr' :: rest', st'')
      | (inl e, tr', st') => (inl e, tr' :: rest, st')
      end
  end.
End Dispatch.

(* ================================================================== *)
(** * data_helpers.py: loading and saving *)

(** A row of a data frame indexed by [isrc]. *)
Record Row := {
  isrc : str;
  columns : gmap string Val;
}.

Abbreviation DataFrame := (list Row).

(** [df.index] *)
Definition index (df : DataFrame) : list str := List.map isrc df.

(** The [dict] of a row once the index is a column again
    ([df.reset_index()], then [df.T.to_dict().values()]). *)
Definition to_dict (r : Row) : track := <["isrc" := VStr (isrc r)]> (columns r).

(** [df.drop(labels)]: every row whose label is listed goes; a listed label
    that [df] does not have raises [KeyError]. *)
Definition drop_rows (df : DataFrame) (labels : list str) : exn + DataFrame :=
  if forallb (fun k => existsb (str_eqb k) (index df)) labels
  then inr (List.filter (fun r => negb (existsb (str_eqb (isrc r)) labels)) df)
  else inl (KeyError "isrc").

(** [pd.concat(dataframes, axis=0)]: no frame at all raises [ValueError]. *)
Definition pd_concat (dataframes : list DataFrame) : exn + DataFrame :=
  match dataframes with
  | [] => inl ValueError
  | _ => inr (List.concat dataframes)
  end.

(** [build_dataframe].  [input_csv] are the frames read from the input
    directory, [output_csv] the output file read as a frame, or the exception
    that reading it raises.  Returns the result and the messages logged. *)
Definition build_dataframe (input_csv : list DataFrame) (resume : bool)
    (output_csv : exn + DataFrame) (subset : option nat) : (exn + list track) * log :=
  let lg := [(INFO, MsgLoading); (INFO, MsgFound (length input_csv))] in
  match pd_concat input_csv with
  | inl e => (inl e, lg)
  | inr df =>
      let df := match subset with Some n => take n df | None => df end in
      let '(df, lg) :=
        if resume
        then match output_csv with
             | inl _ => (df, lg ++ [(ERROR, MsgCannotResume)])
             | inr df_output =>
                 match drop_rows df (index df_output) with
                 | inr df' => (df', lg)
                 | inl _ => (df, lg ++ [(ERROR, MsgCannotResume)])
                 end
             end
        else (df, lg) in
      (inr (List.map to_dict df), lg)
  end.

(** The rows of [pd.DataFrame(list_of_dict).set_index("isrc")], one per
    dictionary, for tracks that carry their [isrc] as text, as those of
    [build_dataframe] do; without that column [KeyError] is raised. *)
Fixpoint set_index_rows (list_of_dict : list track) : exn + DataFrame :=
  match list_of_dict with
  | [] => inr []
  | d :: rest =>
      match d !! "isrc" with
      | Some (VStr k) =>
          match set_index_rows rest with
          | inr df => inr ({| isrc := k; columns := delete "isrc" d |} :: df)
          | inl e => inl e
          end
      | _ => inl (KeyError "isrc")
      end
  end.

(** [pd.DataFrame(list_of_dict).set_index("isrc")].  The frame of an empty
    list has no column at all, and [set_index] raises [KeyError]. *)
Definition set_index (list_of_dict : list track) : exn + DataFrame :=
  match list_of_dict with
  | [] => inl (KeyError "isrc")
  | _ => set_index_rows list_of_dict
  end.

(** [write_dataframe].  Returns the result, the frame written to the output
    file if the call got that far, and the messages logged. *)
Definition write_dataframe (list_of_dict : list track) (output_csv : exn + DataFrame)
    (resume : bool) : (exn + bool) * option DataFrame * log :=
  match set_index list_of_dict with
  | inl e => (inl e, None, [])
  | inr df =>
      let '(df, lg) :=
        if resume
        then match output_csv with
             | inr df_output => (df ++ df_output, [])
             | inl _ => (df, [(ERROR, MsgCannotResume)])
             end
        else (df, []) in
      (inr true, Some df, lg ++ [(INFO, MsgWriting)])
  end.

(* ================================================================== *)
(** * main.py *)

(** What a run leaves behind. *)
Record outcome := {
  o_result : exn + unit;            (* the exception that ends the script, if any *)
  o_tracks : list track;            (* the tracks, as the tasks left them *)
  o_counters : counters;
  o_calls : nat;                    (* external calls made *)
  o_written : option DataFrame;     (* the frame written to the output file, if one was *)
  o_log : log;
}.

Definition counters0 : counters := {| count := 0; total := 0; succeeded := 0; failed := 0 |}.

Section Main.
Context {U : UnicodeData} (w : World).

(** The script of [main.py] after the directories exist.  [RESUME] is the
    flag of [config]; [input_csv] and [output_csv] are what the files hold
    when the script starts. *)
Definition main (RESUME : bool) (input_csv : list DataFrame) (output_csv : exn + DataFrame)
  : outcome :=
  let lg := [(INFO, MsgStarting)] in
  let '(loaded, lg_b) := build_dataframe input_csv RESUME output_csv None in
  let lg := lg ++ lg_b in
  match loaded with
  | inl e =>
      {| o_result := inl e; o_tracks := []; o_counters := counters0; o_calls := 0;
         o_written := None; o_log := lg |}
  | inr tracks =>
      let start_time := perf_counter w 0 in
      let n := length tracks in
      let '(r, tracks', st, written) :=
        if Nat.ltb 0 n
        then
          let st := {| r_counters := counters0; r_calls := 0;
                       r_log := lg ++ [(INFO, MsgProcessing n)] |} in
          match pool_map w n tracks st with
          | (inl e, tracks', st') => (inl e, tracks', st', None)
          | (inr _, tracks', st') =>
              match write_dataframe tracks' output_csv RESUME with
              | (inl e, written, lg_w) =>
                  (inl e, tracks', {| r_counters := r_counters st'; r_calls := r_calls st';
                                      r_log := r_log st' ++ lg_w |}, written)
              | (inr _, written, lg_w) =>
                  (inr tt, tracks', {| r_counters := r_counters st'; r_calls := r_calls st';
                                       r_log := r_log st' ++ lg_w |}, written)
              end
          end
        else (inr tt, tracks, {| r_counters := counters0; r_calls := 0; r_log := lg |}, None) in
      match r with
      | inl e =>
          {| o_result := inl e; o_tracks := tracks'; o_counters := r_counters st;
             o_calls := r_calls st; o_written := written; o_log := r_log st |}
      | inr _ =>
          let end_time := perf_counter w 1 in
          let execution_time := (end_time - start_time)%float in
          match float_truediv execution_time n with
          | inl e =>
              {| o_result := inl e; o_tracks := tracks'; o_counters := r_counters st;
                 o_calls := r_calls st; o_written := written; o_log := r_log st |}
          | inr per_track =>
              {| o_result := inr tt; o_tracks := tracks'; o_counters := r_counters st;
                 o_calls := r_calls st; o_written := written;
                 o_log := r_log st ++ [(INFO, MsgProcessed n execution_time per_track)] |}
          end
      end
  end.
End Main.

(* ================================================================== *)
(** * Properties stated by the specification *)

(** The alphabet the specification allows in a cleaned string: ASCII letters
    and digits, the space, and the five blocks. *)
Definition allowed_char (c : N) : Prop :=
  Char.is_upper c = true \/ Char.is_lower c = true \/ Char.is_digit c = true
  \/ c = Char.space
  \/ Char.is_korean c = true \/ Char.is_japanese c = true \/ Char.is_chinese c = true
  \/ Char.is_cyrillic c = true \/ Char.is_thai c = true.

(** No two spaces side by side. *)
Definition single_spaced (s : str) : Prop :=
  forall l1 l2, s <> l1 ++ Char.space :: Char.space :: l2.

(* ================================================================== *)
(** * Facts about the string functions *)

Lemma kept_class_allowed c : kept_class c = true -> allowed_char c.
Proof.
  unfold kept_class, allowed_char.
  rewrite !orb_true_iff, N.eqb_eq. tauto.
Qed.

Lemma allowed_space : allowed_char Char.space.
Proof. unfold allowed_char. tauto. Qed.

Lemma kept_class_space : kept_class Char.space = true.
Proof. reflexivity. Qed.

Lemma isspace_kept c : Char.isspace c = true -> kept_class c = true -> c = Char.space.
Proof.
  unfold Char.isspace, kept_class, Char.is_upper, Char.is_lower, Char.is_digit,
    Char.in_range, Char.space.
  rewrite !orb_true_iff, !andb_true_iff, !N.eqb_eq, !N.leb_le. lia.
Qed.

Section Squeeze.
Variable cls : N -> bool.

Lemma squeeze_Forall (P : N -> Prop) b s :
  P Char.space -> (forall c, In c s -> cls c = false -> P c) ->
  Forall P (squeeze cls b s).
Proof.
  intros Hsp. revert b. induction s as [|c r IH]; intros b Hs; simpl.
  - constructor.
  - destruct (cls c) eqn:Hc.
    + destruct b.
      * apply IH. intros; apply Hs; simpl; auto.
      * constructor; [exact Hsp|]. apply IH. intros; apply Hs; simpl; auto.
    + constructor.
      * apply Hs; simpl; auto.
      * apply IH. intros; apply Hs; simpl; auto.
Qed.

Lemma squeeze_none b s : Forall (fun c => cls c = false) s -> squeeze cls b s = s.
Proof.
  intros H. revert b. induction H as [|c r Hc _ IH]; intros b; simpl.
  - reflexivity.
  - rewrite Hc, IH. reflexivity.
Qed.
End Squeeze.

Lemma drop_while_suffix p s : exists l, s = l ++ drop_while p s.
Proof.
  induction s as [|c r [l Hl]]; simpl.
  - exists []. reflexivity.
  - destruct (p c).
    + exists (c :: l). simpl. congruence.
    + exists []. reflexivity.
Qed.

Lemma drop_while_Forall (P : N -> Prop) p s : Forall P s -> Forall P (drop_while p s).
Proof.
  intros H. destruct (drop_while_suffix p s) as [l Hl].
  rewrite Hl in H. apply Forall_app in H. tauto.
Qed.

Lemma str_strip_Forall (P : N -> Prop) s : Forall P s -> Forall P (str_strip s).
Proof.
  intros H. unfold str_strip.
  apply Forall_rev, drop_while_Forall, Forall_rev, drop_while_Forall, H.
Qed.

Lemma drop_while_idem p s : drop_while p (drop_while p s) = drop_while p s.
Proof.
  induction s as [|c r IH]; simpl; [reflexivity|].
  destruct (p c) eqn:Hc; [exact IH|]. simpl. rewrite Hc. reflexivity.
Qed.

Lemma drop_while_keeps_last p s a :
  p a = false -> exists l, drop_while p (s ++ [a]) = l ++ [a].
Proof.
  intros Ha. induction s as [|c r [l Hl]]; simpl.
  - rewrite Ha. exists []. reflexivity.
  - destruct (p c).
    + exists l. exact Hl.
    + exists (c :: r). reflexivity.
Qed.

(** What [drop_while] returns starts with a character it does not drop. *)
Lemma drop_while_fixed_rev p u :
  drop_while p u = u ->
  drop_while p (rev (drop_while p (rev u))) = rev (drop_while p (rev u)).
Proof.
  destruct u as [|a u']; [reflexivity|].
  simpl. destruct (p a) eqn:Ha.
  - intros H. exfalso.
    destruct (drop_while_suffix p u') as [l Hl].
    assert (Hlen : length (drop_while p u') = length (a :: u')) by (rewrite H; reflexivity).
    apply (f_equal (@length N)) in Hl. rewrite length_app in Hl. simpl in Hlen. lia.
  - intros _. destruct (drop_while_keeps_last p (rev u') a Ha) as [l Hl].
    rewrite Hl, rev_app_distr. simpl. rewrite Ha. reflexivity.
Qed.

Lemma str_strip_idem s : str_strip (str_strip s) = str_strip s.
Proof.
  unfold str_strip.
  rewrite (drop_while_fixed_rev _ _ (drop_while_idem Char.isspace s)).
  rewrite rev_involutive, drop_while_idem. reflexivity.
Qed.

(** ** Runs of spaces *)

Definition is_sp : N -> bool := N.eqb Char.space.

Lemma squeeze_sp_head r l : squeeze is_sp true r <> Char.space :: l.
Proof.
  induction r as [|c r IH]; simpl; [discriminate|].
  destruct (is_sp c) eqn:Hc; [exact IH|].
  intros [= -> _]. discriminate.
Qed.

Lemma squeeze_single_spaced b s : single_spaced (squeeze is_sp b s).
Proof.
  revert b. induction s as [|c r IH]; intros b l1 l2; simpl.
  - destruct l1; discriminate.
  - destruct (is_sp c) eqn:Hc.
    + destruct b; [apply IH|].
      destruct l1 as [|a l1]; simpl.
      * intros [= H]. exact (squeeze_sp_head _ _ H).
      * intros [= _ H]. exact (IH _ _ _ H).
    + destruct l1 as [|a l1]; simpl.
      * intros [= -> _]. discriminate.
      * intros [= _ H]. exact (IH _ _ _ H).
Qed.

Lemma single_spaced_tail c s : single_spaced (c :: s) -> single_spaced s.
Proof. intros H l1 l2 ->. exact (H (c :: l1) l2 eq_refl). Qed.

Lemma single_spaced_suffix l s : single_spaced (l ++ s) -> single_spaced s.
Proof.
  intros H l1 l2 ->. apply (H (l ++ l1) l2). rewrite <- app_assoc. reflexivity.
Qed.

Lemma single_spaced_rev s : single_spaced s -> single_spaced (rev s).
Proof.
  intros H l1 l2 E. apply (H (rev l2) (rev l1)).
  rewrite <- (rev_involutive s), E, rev_app_distr. simpl.
  rewrite <- !app_assoc. reflexivity.
Qed.

Lemma str_strip_single_spaced s : single_spaced s -> single_spaced (str_strip s).
Proof.
  intros H. unfold str_strip. apply single_spaced_rev.
  destruct (drop_while_suffix Char.isspace (rev (drop_while Char.isspace s))) as [l Hl].
  apply (single_spaced_suffix l). rewrite <- Hl. apply single_spaced_rev.
  destruct (drop_while_suffix Char.isspace s) as [l' Hl'].
  apply (single_spaced_suffix l'). rewrite <- Hl'. exact H.
Qed.

Lemma squeeze_sp_fixed b s :
  single_spaced s -> (b = true -> forall l, s <> Char.space :: l) ->
  squeeze is_sp b s = s.
Proof.
  revert b. induction s as [|c r IH]; intros b Hs Hb; simpl; [reflexivity|].
  destruct (is_sp c) eqn:Hc.
  - apply N.eqb_eq in Hc. subst c. destruct b.
    + exfalso. exact (Hb eq_refl r eq_refl).
    + f_equal. apply IH; [exact (single_spaced_tail _ _ Hs)|].
      intros _ l ->. exact (Hs [] l eq_refl).
  - f_equal. apply IH; [exact (single_spaced_tail _ _ Hs)|]. discriminate.
Qed.

(** ** Substitutions that find nothing to replace *)

Lemma delete_matches_none p s : pattern_occurs p s = false -> delete_matches p 0 s = s.
Proof.
  induction s as [|c r IH]; [reflexivity|].
  intros H. cbn [pattern_occurs] in H. apply orb_false_iff in H as [Hm Hr].
  cbn [delete_matches]. rewrite Hm. f_equal. exact (IH Hr).
Qed.

Lemma match_here_app p q s : match_here (p ++ q) s = true -> match_here p s = true.
Proof.
  revert s. induction p as [|a p IH]; intros s; [reflexivity|].
  destruct s as [|c r]; simpl; [discriminate|].
  rewrite !andb_true_iff. intros [Ha Hr]. split; [exact Ha|exact (IH _ Hr)].
Qed.

Lemma pattern_occurs_app p q s :
  pattern_occurs p s = false -> pattern_occurs (p ++ q) s = false.
Proof.
  induction s as [|c r IH]; cbn [pattern_occurs]; rewrite !orb_false_iff.
  - intros [H _]. split; [|reflexivity].
    destruct (match_here (p ++ q) []) eqn:E; [|reflexivity].
    apply match_here_app in E. congruence.
  - intros [H Hr]. split; [|exact (IH Hr)].
    destruct (match_here (p ++ q) (c :: r)) eqn:E; [|reflexivity].
    apply match_here_app in E. congruence.
Qed.

Lemma blank_spans_none s : Forall (fun c => is_open c = false) s -> blank_spans 0 s = s.
Proof.
  induction 1 as [|c r Hc _ IH]; simpl; [reflexivity|].
  rewrite Hc, IH. reflexivity.
Qed.

Lemma replace_char_none a b s : Forall (fun c => N.eqb c a = false) s -> replace_char a b s = s.
Proof.
  unfold replace_char. induction 1 as [|c r Hc _ IH]; simpl; [reflexivity|].
  rewrite Hc, IH. reflexivity.
Qed.

Lemma kept_not (a : N) c : kept_class a = false -> kept_class c = true -> N.eqb c a = false.
Proof.
  intros Ha Hc. destruct (N.eqb_spec c a) as [->|]; [congruence|reflexivity].
Qed.

(** ** The shape of a cleaned string *)

Section Cleaned.
Context {U : UnicodeData}.

Lemma cs_kept s : Forall (fun c => kept_class c = true) (cs s).
Proof.
  unfold cs. apply str_strip_Forall.
  apply squeeze_Forall; [reflexivity|].
  intros c Hin _. revert c Hin. apply List.Forall_forall.
  apply squeeze_Forall; [reflexivity|].
  intros c _ Hc. apply negb_false_iff in Hc. exact Hc.
Qed.

Lemma cs_single_spaced s : single_spaced (cs s).
Proof. unfold cs. apply str_strip_single_spaced, squeeze_single_spaced. Qed.

Lemma cs_stripped s : str_strip (cs s) = cs s.
Proof. unfold cs. apply str_strip_idem. Qed.
End Cleaned.

(* ================================================================== *)
(** * The normalizer *)

(** C9: for every string [s], [cs s] (strongClean) holds only ASCII letters
    and digits, spaces, and characters of the five allowed blocks (Hangul
    syllables, Hiragana/Katakana, CJK unified ideographs, Cyrillic, Thai),
    whatever the Unicode tables are. *)
Theorem cs_alphabet (U : UnicodeData) (s : str) : Forall allowed_char (cs s).
Proof.
  eapply Forall_impl; [apply cs_kept|].
  intros c Hc. exact (kept_class_allowed c Hc).
Qed.

(** C3, counterexample: [cs] maps "fft.eat x" to "feat x" (the pattern [ft.]
    is removed after [feat.] was tried), and cleaning that result again
    removes "feat " and leaves "x". *)
Lemma cs_twice_differs :
  (forall U : UnicodeData, cs (text "fft.eat x") = text "feat x")
  /\ (forall U : UnicodeData, cs (cs (text "fft.eat x")) = text "x")
  /\ text "x" <> text "feat x".
Proof.
  split; [|split].
  - intros U. vm_compute. reflexivity.
  - intros U. vm_compute. reflexivity.
  - discriminate.
Qed.

(** C3, amended: [cs (cs s) = cs s] for every [s] whose cleaned form no
    longer holds a match of a removal pattern ([feature], [feat] followed by a
    character, [ft] followed by a character) and is left as it is by
    lower-casing and by accent removal, as every cleaned ASCII string is. *)
Theorem cs_idempotent_on_settled (U : UnicodeData) (s : str) :
  str_lower (cs s) = cs s ->
  remove_accents (cs s) = cs s ->
  pattern_occurs pat_feature (cs s) = false ->
  pattern_occurs pat_feat (cs s) = false ->
  pattern_occurs pat_ft (cs s) = false ->
  cs (cs s) = cs s.
Proof.
  intros Hlow Hacc Hfeature Hfeat Hft.
  pose proof (cs_kept s) as Hkept.
  assert (Hno : forall a, kept_class a = false ->
                          Forall (fun c => N.eqb c a = false) (cs s)).
  { intros a Ha. eapply Forall_impl; [exact Hkept|].
    intros c Hc. exact (kept_not a c Ha Hc). }
  unfold cs at 1. rewrite Hlow.
  unfold re_sub_spans. rewrite blank_spans_none.
  2:{ eapply Forall_impl; [exact Hkept|]. intros c Hc. unfold is_open.
      rewrite (kept_not 40 c eq_refl Hc), (kept_not 91 c eq_refl Hc). reflexivity. }
  rewrite (replace_char_none 91), (replace_char_none 93), (replace_char_none 40),
    (replace_char_none 41), (replace_char_none 47), (replace_char_none 38)
    by (apply Hno; reflexivity).
  rewrite Hacc.
  unfold re_sub_delete.
  rewrite (delete_matches_none pat_featurering)
    by exact (pattern_occurs_app pat_feature (literal "ring") _ Hfeature).
  rewrite (delete_matches_none pat_feature), (delete_matches_none pat_feat),
    (delete_matches_none pat_ft) by assumption.
  unfold re_sub_runs.
  rewrite (squeeze_none (fun c => negb (kept_class c))).
  2:{ eapply Forall_impl; [exact Hkept|]. intros c Hc. simpl. rewrite Hc. reflexivity. }
  change (N.eqb Char.space) with is_sp.
  rewrite squeeze_sp_fixed; [apply cs_stripped|apply cs_single_spaced|discriminate].
Qed.

(** The amended claim at "The Beatles - Hey Jude (Remastered 2015)". *)
Lemma cs_idempotent_on_settled_witness :
  @cs ascii_only (@cs ascii_only (text "The Beatles - Hey Jude (Remastered 2015)"))
  = text "the beatles hey jude".
Proof.
  rewrite (cs_idempotent_on_settled ascii_only); vm_compute; reflexivity.
Defined.

(* ================================================================== *)
(** * The asymmetric distance *)

(** What the loop adds to [dist] for a token that is not found. *)
Definition add_share (n : nat) (dist : float) : float := (dist + 1 / Py.of_nat n)%float.

(** [dist] after [n] tokens of [n], none of them found. *)
Definition all_missed (n : nat) : float := Nat.iter n (add_share n) 0%float.

Definition near_one (x : float) : bool :=
  ((1 - 0x1p-45 <=? x) && (x <=? 1 + 0x1p-45))%float.

Lemma iter_add_share n k d :
  Nat.iter k (add_share n) (add_share n d) = add_share n (Nat.iter k (add_share n) d).
Proof. induction k as [|k IH]; simpl; [reflexivity|]. rewrite IH. reflexivity. Qed.

Lemma fold_all_missed n long tokens d best :
  Forall (fun token => re_search token long = false) tokens ->
  fold_left (distance_step n long) tokens (d, best)
  = (Nat.iter (length tokens) (add_share n) d, best).
Proof.
  intros H. revert d. induction H as [|token rest Htok _ IH]; intros d; simpl.
  - reflexivity.
  - rewrite Htok. simpl. rewrite IH.
    change (d + 1 / Py.of_nat n)%float with (add_share n d).
    rewrite iter_add_share. reflexivity.
Qed.

Lemma all_missed_small n : (1 <= n <= 5)%nat -> all_missed n = 1%float.
Proof.
  intros H.
  assert (n = 1 \/ n = 2 \/ n = 3 \/ n = 4 \/ n = 5)%nat as Hn by lia.
  destruct Hn as [-> | [-> | [-> | [-> | ->]]]]; vm_compute; reflexivity.
Qed.

(** [k] equal shares [x], added one by one from 0. *)
Definition sum_shares (k : nat) (x : float) : float :=
  Nat.iter k (fun d => (d + x)%float) 0%float.

Lemma all_missed_shares n : all_missed n = sum_shares n (1 / Py.of_nat n)%float.
Proof. reflexivity. Qed.

Lemma all_missed_near n : (1 <= n <= 1000)%nat -> near_one (all_missed n) = true.
Proof.
  intros H.
  assert (Hall : forallb (fun k => let x := (1 / Py.of_nat k)%float in near_one (sum_shares k x))
                   (seq 1 1000) = true)
    by (vm_compute; reflexivity).
  rewrite forallb_forall in Hall. rewrite all_missed_shares. apply Hall. apply in_seq. lia.
Qed.

(* ================================================================== *)
(** * The order of floats *)

Lemma SFcompare_Lt_trans x y z :
  SFcompare x y = Some Lt -> SFcompare y z = Some Lt -> SFcompare x z = Some Lt.
Proof.
  destruct x as [sx|sx| |sx mx ex], y as [sy|sy| |sy my ey], z as [sz|sz| |sz mz ez];
    simpl; try discriminate; try (destruct sx); try (destruct sy); try (destruct sz);
    try discriminate; try reflexivity; intros H1 H2; f_equal;
    injection H1 as H1; injection H2 as H2;
    change (Pos.compare_cont Eq) with Pos.compare in *;
    destruct (Z.compare_spec ex ey), (Z.compare_spec ey ez), (Z.compare_spec ex ez);
    try discriminate; try reflexivity; try lia; subst;
    destruct (Pos.compare_spec mx my), (Pos.compare_spec my mz), (Pos.compare_spec mx mz);
    simpl in *; try discriminate; try reflexivity; try lia.
Qed.

Lemma SFcompare_Lt_irrefl x : SFcompare x x <> Some Lt.
Proof.
  destruct x as [s|s| |s m e]; simpl; try discriminate.
  - destruct s; discriminate.
  - destruct s; rewrite Z.compare_refl, Pos.compare_cont_refl; discriminate.
Qed.

Lemma ltb_Lt x y : (x <? y)%float = true <-> SFcompare (Prim2SF x) (Prim2SF y) = Some Lt.
Proof.
  rewrite ltb_spec. unfold SFltb.
  destruct (SFcompare (Prim2SF x) (Prim2SF y)) as [[| |]|]; split; congruence.
Qed.

Lemma ltb_irrefl x : (x <? x)%float = false.
Proof.
  destruct (x <? x)%float eqn:E; [|reflexivity].
  apply ltb_Lt in E. destruct (SFcompare_Lt_irrefl _ E).
Qed.

Lemma ltb_trans x y z : (x <? y)%float = true -> (y <? z)%float = true -> (x <? z)%float = true.
Proof. rewrite !ltb_Lt. apply SFcompare_Lt_trans. Qed.

Lemma ltb_asym x y : (x <? y)%float = true -> (y <? x)%float = false.
Proof.
  intros H. destruct (y <? x)%float eqn:E; [|reflexivity].
  pose proof (ltb_trans _ _ _ H E) as C. rewrite ltb_irrefl in C. discriminate.
Qed.

(** [x] is [y] or below it: how a stored best relates to a later one. *)
Definition risen (x y : float) : Prop := y = x \/ (x <? y)%float = true.

Lemma risen_refl x : risen x x.
Proof. left. reflexivity. Qed.

Lemma risen_trans x y z : risen x y -> risen y z -> risen x z.
Proof.
  intros [-> | Hxy] [-> | Hyz]; unfold risen; auto.
  right. exact (ltb_trans _ _ _ Hxy Hyz).
Qed.

Lemma risen_not_below x y : risen x y -> (y <? x)%float = false.
Proof. intros [-> | H]; [apply ltb_irrefl|exact (ltb_asym _ _ H)]. Qed.

(* ================================================================== *)
(** * Running a task *)

Definition confidence_key : string := "youtube_url_confidence".

(** The state with another track. *)
Definition with_track (st : task) (tr : track) : task :=
  {| t_track := tr; t_calls := t_calls st; t_log := t_log st |}.

(** The state after [n] more external calls and the messages [msgs]. *)
Definition advance (st : task) (n : nat) (msgs : log) : task :=
  {| t_track := t_track st; t_calls := t_calls st + n; t_log := t_log st ++ msgs |}.

Lemma bind_run {A B} (m : Task A) (k : A -> Task B) st :
  (m ≫= k) st = match m st with
                | (inr a, st') => k a st'
                | (inl e, st') => (inl e, st')
                end.
Proof. reflexivity. Qed.

Lemma advance_0 st : advance st 0 [] = st.
Proof. destruct st. unfold advance. simpl. rewrite Nat.add_0_r, app_nil_r. reflexivity. Qed.

Lemma advance_advance st n l n' l' :
  advance (advance st n l) n' l' = advance st (n + n') (l ++ l').
Proof. unfold advance. simpl. rewrite Nat.add_assoc, app_assoc. reflexivity. Qed.

(** The track a stored result leaves (lines 103-116). *)
Definition overwritten (res_idx : nat) (c : scored) (tr : track) : track :=
  <["result_idx" := VInt (Z.of_nat res_idx)]>
    (<["youtube_url" := VStr (youtube_url c)]>
       ((if check_official c then <["official" := VStr (text "TRUE")]> else fun t : track => t)
          (<["youtube_url_confidence" := VFloat (confidence_score c)]>
             (<["song_name_dist" := VFloat (song_name_dist c)]>
                (<["metadata_song_name" := VStr (song_name_meta c)]>
                   (<["artist_dist" := VFloat (artist_dist c)]>
                      (<["metadata_artist" := VStr (artist_meta c)]> tr))))))).

Lemma store_run res_idx c st :
  store res_idx c st = (inr tt, with_track st (overwritten res_idx c (t_track st))).
Proof.
  unfold store, overwritten, with_track. destruct (check_official c); reflexivity.
Qed.

Lemma overwritten_confidence res_idx c tr :
  overwritten res_idx c tr !! confidence_key = Some (VFloat (confidence_score c)).
Proof.
  unfold overwritten, confidence_key.
  destruct (check_official c); repeat (rewrite lookup_insert_ne by done);
    apply lookup_insert_eq.
Qed.

Lemma overwritten_result_idx res_idx c tr :
  overwritten res_idx c tr !! "result_idx" = Some (VInt (Z.of_nat res_idx)).
Proof. unfold overwritten. apply lookup_insert_eq. Qed.

(** The columns a stored result writes. *)
Definition best_columns : list string :=
  ["metadata_artist"; "artist_dist"; "metadata_song_name"; "song_name_dist";
   "youtube_url_confidence"; "official"; "youtube_url"; "result_idx"].

Lemma overwritten_other res_idx c tr key :
  ~ In key best_columns -> overwritten res_idx c tr !! key = tr !! key.
Proof.
  unfold best_columns. simpl. intros H. unfold overwritten.
  destruct (check_official c); repeat (rewrite lookup_insert_ne by (intro; tauto));
    reflexivity.
Qed.

(** The rule of line 102, case by case. *)
Lemma keep_best_run res_idx c st :
  keep_best res_idx c st =
    if Nat.eqb res_idx 0 then (inr tt, with_track st (overwritten res_idx c (t_track st)))
    else match t_track st !! confidence_key with
         | None => (inl (KeyError confidence_key), st)
         | Some v =>
             match as_number v with
             | None => (inl TypeError, st)
             | Some best =>
                 if (best <? confidence_score c)%float
                 then (inr tt, with_track st (overwritten res_idx c (t_track st)))
                 else (inr tt, st)
             end
         end.
Proof.
  unfold keep_best, is_better, get_number, get_item, confidence_key.
  destruct (Nat.eqb res_idx 0).
  - rewrite bind_run. simpl. apply store_run.
  - rewrite !bind_run.
    destruct (t_track st !! "youtube_url_confidence") as [v|]; [|reflexivity].
    destruct (as_number v) as [best|]; [|reflexivity].
    simpl. destruct (best <? confidence_score c)%float; [apply store_run|reflexivity].
Qed.

Lemma get_number_run key st :
  get_number key st =
    match t_track st !! key with
    | None => (inl (KeyError key), st)
    | Some v => match as_number v with
                | Some x => (inr x, st)
                | None => (inl TypeError, st)
                end
    end.
Proof.
  unfold get_number, get_item. rewrite bind_run.
  destruct (t_track st !! key) as [v|]; [|reflexivity].
  destruct (as_number v); reflexivity.
Qed.

Lemma get_text_run key st :
  get_text key st =
    match t_track st !! key with
    | None => (inl (KeyError key), st)
    | Some (VStr s) => (inr s, st)
    | Some _ => (inl TypeError, st)
    end.
Proof.
  unfold get_text, get_item. rewrite bind_run.
  destruct (t_track st !! key) as [[]|]; reflexivity.
Qed.

(** ** Scoring reads the two input columns and the world only *)

Definition agree (st1 st2 : task) : Prop :=
  t_calls st1 = t_calls st2
  /\ t_track st1 !! "artists" = t_track st2 !! "artists"
  /\ t_track st1 !! "song_name" = t_track st2 !! "song_name".

(** [m] leaves the track alone, makes [n] external calls, and its result and
    messages are the same from any two states that agree. *)
Definition reads_inputs_only {A} (n : nat) (m : Task A) : Prop :=
  forall st1 st2, agree st1 st2 ->
    exists r msgs, m st1 = (r, advance st1 n msgs) /\ m st2 = (r, advance st2 n msgs).

Lemma agree_advance st1 st2 n l : agree st1 st2 -> agree (advance st1 n l) (advance st2 n l).
Proof. intros (Hc & Ha & Hs). unfold agree. simpl. rewrite Hc. auto. Qed.

Lemma rio_ret {A} (a : A) : reads_inputs_only 0 (mret a).
Proof. intros st1 st2 _. exists (inr a), []. rewrite !advance_0. split; reflexivity. Qed.

Lemma rio_raise {A} e : reads_inputs_only 0 (@raise A e).
Proof. intros st1 st2 _. exists (inl e), []. rewrite !advance_0. split; reflexivity. Qed.

Lemma rio_logger lv m : reads_inputs_only 0 (logger lv m).
Proof.
  intros st1 st2 _. exists (inr tt), [(lv, m)]. unfold logger, advance.
  rewrite !Nat.add_0_r. split; reflexivity.
Qed.

Lemma rio_bind {A B} n (m : Task A) (k : A -> Task B) :
  reads_inputs_only n m -> (forall a, reads_inputs_only 0 (k a)) ->
  reads_inputs_only n (m ≫= k).
Proof.
  intros Hm Hk st1 st2 Hag. rewrite !bind_run.
  destruct (Hm st1 st2 Hag) as (r & l & -> & ->).
  destruct r as [e|a].
  - exists (inl e), l. split; reflexivity.
  - destruct (Hk a _ _ (agree_advance _ _ n l Hag)) as (r' & l' & -> & ->).
    exists r', (l ++ l'). rewrite !advance_advance, Nat.add_0_r. split; reflexivity.
Qed.

Lemma rio_get_text_artists : reads_inputs_only 0 (get_text "artists").
Proof.
  intros st1 st2 (_ & Ha & _). rewrite !get_text_run, <- Ha.
  destruct (t_track st1 !! "artists") as [[s|x|z]|]; eexists _, [];
    rewrite !advance_0; split; reflexivity.
Qed.

Lemma rio_get_text_song_name : reads_inputs_only 0 (get_text "song_name").
Proof.
  intros st1 st2 (_ & _ & Hs). rewrite !get_text_run, <- Hs.
  destruct (t_track st1 !! "song_name") as [[s|x|z]|]; eexists _, [];
    rewrite !advance_0; split; reflexivity.
Qed.

Lemma rio_extract_info w url : reads_inputs_only 1 (ydl_extract_info w url).
Proof.
  intros st1 st2 (Hc & _ & _). unfold ydl_extract_info, advance. rewrite <- Hc.
  destruct (extract_info w (t_calls st1) url) as [e|meta]; eexists _, [];
    unfold advance; rewrite !app_nil_r, !Nat.add_1_r; split; reflexivity.
Qed.

Lemma rio_add_field f tail msg meta : reads_inputs_only 0 (add_field f tail msg meta).
Proof.
  destruct f; simpl.
  - apply rio_ret.
  - apply rio_bind; [apply rio_logger|intros; apply rio_ret].
  - apply rio_ret.
Qed.

Lemma score_result_reads_inputs_only (U : UnicodeData) w result :
  reads_inputs_only 1 (score_result w result).
Proof.
  unfold score_result.
  apply rio_bind; [apply rio_extract_info|intros meta].
  apply rio_bind.
  { destruct (meta_duration meta).
    - apply rio_bind; [apply rio_logger|intros; apply rio_ret].
    - apply rio_ret.
    - apply rio_ret. }
  intros duration.
  apply rio_bind; [apply rio_add_field|intros m1].
  apply rio_bind; [apply rio_add_field|intros m2].
  apply rio_bind; [apply rio_add_field|intros m3].
  apply rio_bind; [apply rio_get_text_artists|intros artists].
  destruct (get_asymmetric_token_distance (cs artists) (cs m3)) as [ad am].
  apply rio_bind; [apply rio_get_text_song_name|intros song].
  destruct (get_asymmetric_token_distance (cs song) (cs m3)) as [sd sm].
  apply rio_bind; [|intros; apply rio_ret].
  destruct duration; [apply rio_ret|apply rio_raise].
Qed.

(** The score of [result] for a track [tr], fetched as external call number
    [calls]. *)
Definition score_of {U : UnicodeData} (w : World) (tr : track) (calls : nat)
    (result : SearchResult) : exn + scored :=
  fst (score_result w result {| t_track := tr; t_calls := calls; t_log := [] |}).

Lemma score_result_run (U : UnicodeData) w result st :
  exists msgs,
    score_result w result st = (score_of w (t_track st) (t_calls st) result, advance st 1 msgs).
Proof.
  destruct (score_result_reads_inputs_only U w result st
              {| t_track := t_track st; t_calls := t_calls st; t_log := [] |})
    as (r & msgs & H1 & H2).
  { repeat split. }
  exists msgs. unfold score_of. rewrite H1, H2. reflexivity.
Qed.

Lemma score_of_agree (U : UnicodeData) w tr1 tr2 calls result :
  tr1 !! "artists" = tr2 !! "artists" -> tr1 !! "song_name" = tr2 !! "song_name" ->
  score_of w tr1 calls result = score_of w tr2 calls result.
Proof.
  intros Ha Hs. unfold score_of.
  destruct (score_result_reads_inputs_only U w result
              {| t_track := tr1; t_calls := calls; t_log := [] |}
              {| t_track := tr2; t_calls := calls; t_log := [] |})
    as (r & msgs & -> & ->); [repeat split; assumption|reflexivity].
Qed.


Lemma bind_returns {A B} (m : Task A) (k : A -> Task B) st b st' :
  (m ≫= k) st = (inr b, st') ->
  exists a st1, m st = (inr a, st1) /\ k a st1 = (inr b, st').
Proof.
  rewrite bind_run. destruct (m st) as [[e|a] st1]; [discriminate|]. eauto.
Qed.

Lemma ret_returns {A} (a b : A) st st' :
  (mret a : Task A) st = (inr b, st') -> a = b /\ st = st'.
Proof. intros [= -> ->]. auto. Qed.

(** A result that lasts fifteen minutes or more scores 0. *)
Lemma long_result_scores_zero (U : UnicodeData) w tr calls result meta d c :
  extract_info w calls (youtube_url_prefix ++ url_suffix result) = inr meta ->
  meta_duration meta = Seconds d -> (900 <= d)%Z ->
  score_of w tr calls result = inr c ->
  confidence_score c = 0%float.
Proof.
  intros Hinfo Hdur Hd. unfold score_of.
  destruct (score_result w result {| t_track := tr; t_calls := calls; t_log := [] |})
    as [r st'] eqn:Hrun.
  cbn [fst]. intros ->. unfold score_result in Hrun.
  apply bind_returns in Hrun as (meta' & st1 & Hm & Hrun).
  unfold ydl_extract_info in Hm. cbn [t_calls] in Hm. rewrite Hinfo in Hm.
  injection Hm as <- <-. rewrite Hdur in Hrun.
  apply bind_returns in Hrun as (duration & st2 & Hdu & Hrun).
  apply ret_returns in Hdu as [<- <-].
  apply bind_returns in Hrun as (m1 & st3 & _ & Hrun).
  apply bind_returns in Hrun as (m2 & st4 & _ & Hrun).
  apply bind_returns in Hrun as (m3 & st5 & _ & Hrun).
  apply bind_returns in Hrun as (artists & st6 & _ & Hrun).
  destruct (get_asymmetric_token_distance (cs artists) (cs m3)) as [ad am].
  apply bind_returns in Hrun as (song & st7 & _ & Hrun).
  destruct (get_asymmetric_token_distance (cs song) (cs m3)) as [sd sm].
  apply bind_returns in Hrun as (conf & st8 & Hconf & Hrun).
  apply ret_returns in Hconf as [<- _].
  apply ret_returns in Hrun as [<- _].
  cbn [confidence_score].
  replace (15 * 60 <=? d)%Z with true; [reflexivity|].
  symmetry. apply Z.leb_le. exact Hd.
Qed.

(* ================================================================== *)
(** * The candidate scan *)

Section Scan.
Context {U : UnicodeData} (w : World).

Lemma scan_cons res_idx result rest st :
  scan w res_idx (result :: rest) st =
    match score_result w result st with
    | (inl e, st1) => (inl e, st1)
    | (inr c, st1) =>
        match keep_best res_idx c st1 with
        | (inl e, st2) => (inl e, st2)
        | (inr _, st2) =>
            match get_number confidence_key st2 with
            | (inl e, st3) => (inl e, st3)
            | (inr best, st3) =>
                if (Py.early_exit <? best)%float then (inr tt, st3)
                else scan w (S res_idx) rest st3
            end
        end
    end.
Proof.
  cbn [scan]. rewrite bind_run. destruct (score_result w result st) as [[e|c] st1]; [reflexivity|].
  rewrite bind_run. destruct (keep_best res_idx c st1) as [[e|[]] st2]; [reflexivity|].
  rewrite bind_run. unfold confidence_key.
  destruct (get_number "youtube_url_confidence" st2) as [[e|best] st3]; [reflexivity|].
  destruct (Py.early_exit <? best)%float; reflexivity.
Qed.

(** From the second result on, the stored confidence only rises, however the
    scan ends. *)
Lemma scan_rises results : forall res_idx st r st' best,
  res_idx <> 0 ->
  t_track st !! confidence_key = Some (VFloat best) ->
  scan w res_idx results st = (r, st') ->
  exists best', t_track st' !! confidence_key = Some (VFloat best') /\ risen best best'.
Proof.
  induction results as [|result rest IH]; intros res_idx st r st' best Hidx Hbest Hscan.
  - cbn in Hscan. injection Hscan as _ <-. exists best. split; [exact Hbest|apply risen_refl].
  - rewrite scan_cons in Hscan.
    destruct (score_result_run U w result st) as [msgs Hsc]. rewrite Hsc in Hscan.
    destruct (score_of w (t_track st) (t_calls st) result) as [e|c].
    { injection Hscan as _ <-. exists best. split; [exact Hbest|apply risen_refl]. }
    rewrite keep_best_run in Hscan.
    destruct (Nat.eqb_spec res_idx 0) as [|_]; [contradiction|].
    cbn [advance t_track] in Hscan. rewrite Hbest in Hscan. cbn [as_number] in Hscan.
    destruct (best <? confidence_score c)%float eqn:Hlt.
    + rewrite get_number_run in Hscan. cbn [with_track t_track] in Hscan.
      rewrite overwritten_confidence in Hscan. cbn [as_number] in Hscan.
      destruct (Py.early_exit <? confidence_score c)%float.
      * injection Hscan as _ <-. exists (confidence_score c). cbn [with_track t_track].
        split; [apply overwritten_confidence|right; exact Hlt].
      * apply (IH _ _ _ _ (confidence_score c)) in Hscan;
          [|lia|apply overwritten_confidence].
        destruct Hscan as (best' & Hst' & Hr). exists best'. split; [exact Hst'|].
        apply (risen_trans _ (confidence_score c)); [right; exact Hlt|exact Hr].
    + rewrite get_number_run in Hscan. cbn [advance t_track] in Hscan.
      rewrite Hbest in Hscan. cbn [as_number] in Hscan.
      destruct (Py.early_exit <? best)%float.
      * injection Hscan as _ <-. exists best. split; [exact Hbest|apply risen_refl].
      * apply (IH _ _ _ _ best) in Hscan; [exact Hscan|lia|exact Hbest].
Qed.

(** The whole scan: once the first result is stored, the stored confidence
    only rises. *)
Lemma scan_rises_from_first result rest st r st' c :
  score_of w (t_track st) (t_calls st) result = inr c ->
  scan w 0 (result :: rest) st = (r, st') ->
  exists best', t_track st' !! confidence_key = Some (VFloat best')
                /\ risen (confidence_score c) best'.
Proof.
  intros Hc Hscan. rewrite scan_cons in Hscan.
  destruct (score_result_run U w result st) as [msgs Hsc]. rewrite Hsc, Hc in Hscan.
  rewrite keep_best_run in Hscan. cbn [Nat.eqb] in Hscan.
  rewrite get_number_run in Hscan. cbn [with_track t_track] in Hscan.
  rewrite overwritten_confidence in Hscan. cbn [as_number] in Hscan.
  destruct (Py.early_exit <? confidence_score c)%float.
  - injection Hscan as _ <-. exists (confidence_score c).
    split; [apply overwritten_confidence|apply risen_refl].
  - apply (scan_rises _ _ _ _ _ (confidence_score c)) in Hscan;
      [exact Hscan|lia|apply overwritten_confidence].
Qed.
End Scan.

(** C5, amended: during the scan of one track the best-match fields are
    overwritten exactly when the index is 0 or the new confidence is strictly
    greater than the stored one (otherwise the track is left as it is).  At
    index 0 they are overwritten whatever the track held, so the stored
    confidence is non-decreasing only from there on: from the second result
    on, and from the first result's score on over a whole scan, it stays or
    rises, whether the scan ends normally, early or by an exception. *)
Theorem best_confidence_only_rises (U : UnicodeData) (w : World) :
  (forall res_idx c st,
      (res_idx = 0
       \/ exists best, t_track st !! confidence_key ≫= as_number = Some best
                       /\ (best <? confidence_score c)%float = true) ->
      keep_best res_idx c st = (inr tt, with_track st (overwritten res_idx c (t_track st))))
  /\ (forall res_idx c st best,
      res_idx <> 0 ->
      t_track st !! confidence_key ≫= as_number = Some best ->
      (best <? confidence_score c)%float = false ->
      keep_best res_idx c st = (inr tt, st))
  /\ (forall results res_idx st r st' best,
      res_idx <> 0 ->
      t_track st !! confidence_key = Some (VFloat best) ->
      scan w res_idx results st = (r, st') ->
      exists best', t_track st' !! confidence_key = Some (VFloat best') /\ risen best best')
  /\ (forall result rest st r st' c,
      score_of w (t_track st) (t_calls st) result = inr c ->
      scan w 0 (result :: rest) st = (r, st') ->
      exists best', t_track st' !! confidence_key = Some (VFloat best')
                    /\ risen (confidence_score c) best').
Proof.
  repeat split.
  - intros res_idx c st H. rewrite keep_best_run.
    destruct (Nat.eqb_spec res_idx 0) as [|Hne]; [reflexivity|].
    destruct H as [|(best & Hb & Hlt)]; [contradiction|].
    destruct (t_track st !! confidence_key) as [v|]; [|discriminate].
    cbn in Hb. rewrite Hb, Hlt. reflexivity.
  - intros res_idx c st best Hne Hb Hlt. rewrite keep_best_run.
    destruct (Nat.eqb_spec res_idx 0) as [|_]; [contradiction|].
    destruct (t_track st !! confidence_key) as [v|]; [|discriminate].
    cbn in Hb. rewrite Hb, Hlt. reflexivity.
  - intros results. apply scan_rises.
  - apply scan_rises_from_first.
Qed.

(** ** The stored result is one that no scanned result beats *)

Section Winner.
Context {U : UnicodeData} (w : World).
(** The track and the call counter the scan starts from, and its results. *)
Context (tr0 : track) (calls0 : nat) (all : list SearchResult).

(** After [k] results: as many calls were made, and the input columns are
    as they were. *)
Definition in_step (k : nat) (st : task) : Prop :=
  t_calls st = calls0 + k
  /\ t_track st !! "artists" = tr0 !! "artists"
  /\ t_track st !! "song_name" = tr0 !! "song_name".

(** The track holds result [i] with its score [c]. *)
Definition holds (st : task) (i : nat) (c : scored) : Prop :=
  (exists r, all !! i = Some r /\ score_of w tr0 (calls0 + i) r = inr c)
  /\ t_track st !! "result_idx" = Some (VInt (Z.of_nat i))
  /\ t_track st !! confidence_key = Some (VFloat (confidence_score c)).

(** No result before [k] scores above [c]. *)
Definition unbeaten (k : nat) (c : scored) : Prop :=
  forall j r_j c_j, j < k -> all !! j = Some r_j ->
    score_of w tr0 (calls0 + j) r_j = inr c_j ->
    (confidence_score c <? confidence_score c_j)%float = false.

Definition best_so_far (k : nat) (st : task) : Prop :=
  exists i c, holds st i c /\ unbeaten k c.

(** How a scan that returns leaves the track: with a stored result that
    either ended the scan early or is beaten by none. *)
Definition scan_done (st : task) : Prop :=
  exists i c, holds st i c
    /\ ((Py.early_exit <? confidence_score c)%float = true \/ unbeaten (length all) c).

Lemma unbeaten_step k c c' r :
  all !! k = Some r -> score_of w tr0 (calls0 + k) r = inr c' ->
  unbeaten k c -> (confidence_score c <? confidence_score c')%float = false ->
  unbeaten (S k) c.
Proof.
  intros Hr Hc' Hun Hlt j r_j c_j Hj Hrj Hcj.
  destruct (decide (j = k)) as [->|Hne].
  - rewrite Hr in Hrj. injection Hrj as <-. rewrite Hc' in Hcj. injection Hcj as <-. exact Hlt.
  - apply (Hun j r_j c_j); [lia|assumption|assumption].
Qed.

Lemma unbeaten_new k c c' r :
  all !! k = Some r -> score_of w tr0 (calls0 + k) r = inr c' ->
  unbeaten k c -> (confidence_score c <? confidence_score c')%float = true ->
  unbeaten (S k) c'.
Proof.
  intros Hr Hc' Hun Hlt j r_j c_j Hj Hrj Hcj.
  destruct (decide (j = k)) as [->|Hne].
  - rewrite Hr in Hrj. injection Hrj as <-. rewrite Hc' in Hcj. injection Hcj as <-.
    apply ltb_irrefl.
  - destruct (confidence_score c' <? confidence_score c_j)%float eqn:E; [|reflexivity].
    pose proof (ltb_trans _ _ _ Hlt E) as Hbad.
    rewrite (Hun j r_j c_j) in Hbad; [discriminate|lia|assumption|assumption].
Qed.

Lemma unbeaten_first c r :
  all !! 0 = Some r -> score_of w tr0 (calls0 + 0) r = inr c -> unbeaten 1 c.
Proof.
  intros Hr Hc j r_j c_j Hj Hrj Hcj. assert (j = 0) as -> by lia.
  rewrite Hr in Hrj. injection Hrj as <-. rewrite Hc in Hcj. injection Hcj as <-.
  apply ltb_irrefl.
Qed.

Lemma in_step_next k st msgs :
  in_step k st -> in_step (S k) (advance st 1 msgs).
Proof. intros (Hc & Ha & Hs). unfold in_step. cbn. repeat split; [lia|assumption|assumption]. Qed.

Lemma in_step_overwritten k st res_idx c :
  in_step k st -> in_step k (with_track st (overwritten res_idx c (t_track st))).
Proof.
  intros (Hc & Ha & Hs). unfold in_step. cbn [with_track t_track t_calls].
  rewrite !overwritten_other by (unfold best_columns; simpl; intuition discriminate).
  auto.
Qed.

Lemma holds_overwritten st k c r :
  all !! k = Some r -> score_of w tr0 (calls0 + k) r = inr c ->
  holds (with_track st (overwritten k c (t_track st))) k c.
Proof.
  intros Hr Hc. split; [exists r; auto|]. cbn [with_track t_track].
  split; [apply overwritten_result_idx|apply overwritten_confidence].
Qed.

(** One turn of the loop keeps the invariant. *)
Lemma turn_keeps_best k st result c msgs st2 :
  all !! k = Some result ->
  score_of w tr0 (calls0 + k) result = inr c ->
  in_step k st -> (k = 0 \/ best_so_far k st) ->
  keep_best k c (advance st 1 msgs) = (inr tt, st2) ->
  in_step (S k) st2 /\ best_so_far (S k) st2.
Proof.
  intros Hr Hc Hin Hbest Hkeep. rewrite keep_best_run in Hkeep.
  destruct (Nat.eqb_spec k 0) as [->|Hne].
  - injection Hkeep as <-. split.
    + apply (in_step_overwritten _ (advance st 1 msgs)), in_step_next, Hin.
    + exists 0, c. split; [exact (holds_overwritten (advance st 1 msgs) 0 c result Hr Hc)|].
      exact (unbeaten_first c result Hr Hc).
  - destruct Hbest as [|(i & c0 & Hholds & Hun)]; [contradiction|].
    destruct Hholds as (Hsrc & Hidx & Hconf).
    cbn [advance t_track] in Hkeep. rewrite Hconf in Hkeep. cbn [as_number] in Hkeep.
    destruct (confidence_score c0 <? confidence_score c)%float eqn:Hlt;
      injection Hkeep as <-.
    + split.
      * apply (in_step_overwritten _ (advance st 1 msgs)), in_step_next, Hin.
      * exists k, c. split; [exact (holds_overwritten (advance st 1 msgs) k c result Hr Hc)|].
        exact (unbeaten_new k c0 c result Hr Hc Hun Hlt).
    + split; [apply in_step_next, Hin|].
      exists i, c0. split; [split; [exact Hsrc|split; assumption]|].
      exact (unbeaten_step k c0 c result Hr Hc Hun Hlt).
Qed.

Lemma scan_keeps_best rest : forall pre st st',
  all = pre ++ rest ->
  in_step (length pre) st -> (length pre = 0 \/ best_so_far (length pre) st) ->
  scan w (length pre) rest st = (inr tt, st') ->
  (all = [] /\ st' = st) \/ scan_done st'.
Proof.
  induction rest as [|result rest IH]; intros pre st st' Hall Hin Hbest Hscan.
  - cbn in Hscan. injection Hscan as <-. rewrite app_nil_r in Hall. subst pre.
    destruct Hbest as [Hlen|(i & c & Hholds & Hun)].
    + left. split; [|reflexivity]. destruct all; [reflexivity|discriminate].
    + right. exists i, c. split; [exact Hholds|right; exact Hun].
  - right.
    assert (Hk : all !! length pre = Some result) by (rewrite Hall; apply list_lookup_middle; reflexivity).
    rewrite scan_cons in Hscan.
    destruct (score_result_run U w result st) as [msgs Hsc]. rewrite Hsc in Hscan.
    destruct Hin as (Hcalls & Hart & Hsong).
    rewrite (score_of_agree U w _ tr0 _ _ Hart Hsong), Hcalls in Hscan.
    destruct (score_of w tr0 (calls0 + length pre) result) as [e|c] eqn:Hc; [discriminate|].
    destruct (keep_best (length pre) c (advance st 1 msgs)) as [[e|[]] st2] eqn:Hkeep;
      [discriminate|].
    destruct (turn_keeps_best _ st result c msgs st2 Hk Hc
                (conj Hcalls (conj Hart Hsong)) Hbest Hkeep) as [Hin2 Hbest2].
    rewrite get_number_run in Hscan.
    destruct Hbest2 as (i & c1 & Hholds & Hun).
    pose proof Hholds as (_ & _ & Hconf). rewrite Hconf in Hscan. cbn [as_number] in Hscan.
    destruct (Py.early_exit <? confidence_score c1)%float eqn:Hexit.
    + injection Hscan as <-. exists i, c1. split; [exact Hholds|left; exact Hexit].
    + specialize (IH (pre ++ [result]) st2 st').
      rewrite length_app, Nat.add_1_r in IH.
      destruct IH as [[Hnil _]|Hdone].
      * rewrite Hall, <- app_assoc. reflexivity.
      * exact Hin2.
      * right. exists i, c1. split; assumption.
      * exact Hscan.
      * rewrite Hnil in Hk. discriminate.
      * exact Hdone.
Qed.
End Winner.

(** C6: a result whose duration is 900 seconds or more scores 0, whatever
    its text; and when a scan returns with such a result stored as the best
    match, the stored confidence is 0 and no result of the scan scored above
    0. *)
Theorem long_result_wins_only_unbeaten (U : UnicodeData) (w : World) :
  (forall tr calls result meta d c,
      extract_info w calls (youtube_url_prefix ++ url_suffix result) = inr meta ->
      meta_duration meta = Seconds d -> (900 <= d)%Z ->
      score_of w tr calls result = inr c ->
      confidence_score c = 0%float)
  /\ (forall results st st' i r_i meta d,
      scan w 0 results st = (inr tt, st') ->
      t_track st' !! "result_idx" = Some (VInt (Z.of_nat i)) ->
      results !! i = Some r_i ->
      extract_info w (t_calls st + i) (youtube_url_prefix ++ url_suffix r_i) = inr meta ->
      meta_duration meta = Seconds d -> (900 <= d)%Z ->
      t_track st' !! confidence_key = Some (VFloat 0)
      /\ forall j r_j c_j,
           results !! j = Some r_j ->
           score_of w (t_track st) (t_calls st + j) r_j = inr c_j ->
           (0 <? confidence_score c_j)%float = false).
Proof.
  split; [apply long_result_scores_zero|].
  intros results st st' i r_i meta d Hscan Hidx Hri Hinfo Hdur Hd.
  destruct (scan_keeps_best w (t_track st) (t_calls st) results results [] st st')
    as [[Hnil _]|(i' & c & Hholds & Hend)].
  - reflexivity.
  - unfold in_step. cbn. repeat split. lia.
  - left. reflexivity.
  - exact Hscan.
  - rewrite Hnil in Hri. discriminate.
  - destruct Hholds as ((r & Hr & Hc) & Hidx' & Hconf).
    rewrite Hidx in Hidx'. injection Hidx' as Hi. apply Nat2Z.inj in Hi. subst i'.
    rewrite Hri in Hr. injection Hr as <-.
    pose proof (long_result_scores_zero U w _ _ _ _ _ _ Hinfo Hdur Hd Hc) as Hzero.
    rewrite Hzero in *. split; [exact Hconf|].
    destruct Hend as [Hexit|Hun]; [vm_compute in Hexit; discriminate|].
    intros j r_j c_j Hrj Hcj. rewrite <- Hzero. apply (Hun j r_j c_j); [|assumption|assumption].
    exact (lookup_lt_Some _ _ _ Hrj).
Qed.

(* ================================================================== *)
(** * The dispatcher *)

(** The counters after one more task. *)
Definition tally (len_tracks : nat) (success : bool) (c : counters) : counters :=
  {| count := S (count c); total := len_tracks;
     succeeded := if success then S (succeeded c) else succeeded c;
     failed := if success then failed c else S (failed c) |}.

Definition succeeded_in (outcome : exn + bool) : bool :=
  match outcome with inr success => success | inl _ => false end.


Section Pool.
Context {U : UnicodeData} (w : World).

Lemma perform_extraction_run tr n st outcome t :
  0 < n ->
  extract_youtube_link w (task_of tr st) = (outcome, t) ->
  exists lg,
    perform_extraction w tr n st
    = (inr tt, t_track t,
       {| r_counters := tally n (succeeded_in outcome) (r_counters st);
          r_calls := t_calls t; r_log := lg |}).
Proof.
  intros Hn Hex. unfold perform_extraction. rewrite Hex.
  assert (Hdiv : forall a, exists q, int_truediv a n = inr q).
  { intros a. unfold int_truediv. destruct (Nat.eqb_spec n 0); [lia|eauto]. }
  destruct outcome as [e|success]; cbn [succeeded_in];
    match goal with |- context [int_truediv ?a n] => destruct (Hdiv a) as [q ->] end.
  - destruct (Nat.eqb (S (count (r_counters st)) mod 2) 0); eexists; reflexivity.
  - destruct success;
      destruct (Nat.eqb (S (count (r_counters st)) mod 2) 0); eexists; reflexivity.
Qed.

(** With a positive total a task raises nothing. *)
Lemma perform_extraction_returns tr n st :
  0 < n ->
  exists tr' st',
    perform_extraction w tr n st = (inr tt, tr', st')
    /\ count (r_counters st') = S (count (r_counters st))
    /\ succeeded (r_counters st') + failed (r_counters st')
       = S (succeeded (r_counters st) + failed (r_counters st)).
Proof.
  intros Hn. destruct (extract_youtube_link w (task_of tr st)) as [outcome t] eqn:Hex.
  destruct (perform_extraction_run tr n st outcome t Hn Hex) as [lg ->].
  eexists _, _. split; [reflexivity|]. cbn.
  destruct (succeeded_in outcome); lia.
Qed.

Lemma pool_map_returns n tracks : forall st,
  0 < n ->
  exists tracks' st',
    pool_map w n tracks st = (inr tt, tracks', st')
    /\ length tracks' = length tracks
    /\ count (r_counters st') = count (r_counters st) + length tracks
    /\ succeeded (r_counters st') + failed (r_counters st')
       = succeeded (r_counters st) + failed (r_counters st) + length tracks.
Proof.
  induction tracks as [|tr rest IH]; intros st Hn.
  - exists [], st. cbn. repeat split; lia.
  - destruct (perform_extraction_returns tr n st Hn) as (tr' & st1 & Hp & Hc & Hsf).
    destruct (IH st1 Hn) as (rest' & st2 & Hr & Hl & Hc2 & Hsf2).
    exists (tr' :: rest'), st2. cbn [pool_map]. rewrite Hp, Hr. cbn.
    repeat split; lia.
Qed.

End Pool.


(* ================================================================== *)
(** * Loading, saving and the whole run *)


Section Run.
Context {U : UnicodeData} (w : World).


(** With nothing to process, the script ends in the division of the report. *)
Lemma main_nothing_to_do RESUME input_csv output_csv lg :
  build_dataframe input_csv RESUME output_csv None = (inr [], lg) ->
  main w RESUME input_csv output_csv
  = {| o_result := inl ZeroDivisionError; o_tracks := []; o_counters := counters0;
       o_calls := 0; o_written := None; o_log := (INFO, MsgStarting) :: lg |}.
Proof. intros Hb. unfold main. rewrite Hb. reflexivity. Qed.
End Run.


(* ================================================================== *)
(** * Sample data *)

Definition sample_row (key artists song_name : string) : Row :=
  {| isrc := text key;
     columns := <["artists" := VStr (text artists)]> (<["song_name" := VStr (text song_name)]> ∅) |}.

Definition clock (n : nat) : float := Py.of_nat n.

Definition run0 : run := {| r_counters := counters0; r_calls := 0; r_log := [] |}.

(** Every search answers with an empty list. *)
Definition no_results : World :=
  {| youtube_search := fun _ _ => inr [];
     extract_info := fun _ _ => inl (ExternalError 404);
     perf_counter := clock |}.

Definition official_video : SearchResult :=
  {| url_suffix := text "/watch?v=FGBhQbmPwH8";
     title := Text (text "Daft Punk - One More Time (Official Video)");
     long_desc := NotText;
     channel := Text (text "Daft Punk") |}.

Definition long_mix : SearchResult :=
  {| url_suffix := text "/watch?v=mix";
     title := Text (text "Daft Punk One More Time 2 hour mix");
     long_desc := Absent;
     channel := Absent |}.

Definition unrelated : SearchResult :=
  {| url_suffix := text "/watch?v=cats";
     title := Text (text "Funny cats");
     long_desc := Absent;
     channel := Absent |}.

(** The metadata of a video, by its address. *)
Definition video (url : str) : exn + Meta :=
  if pattern_occurs (literal "mix") url
  then inr {| meta_duration := Seconds 7200; meta_str := text "{'id': 'mix'}" |}
  else if pattern_occurs (literal "cats") url
  then inr {| meta_duration := Seconds 61; meta_str := text "{'id': 'cats'}" |}
  else inr {| meta_duration := Seconds 320; meta_str := text "{'id': 'FGBhQbmPwH8'}" |}.

(** Searches fail for the artist "Nobody" and find the official video for
    anybody else. *)
Definition flaky : World :=
  {| youtube_search := fun _ q =>
       if pattern_occurs (literal "Nobody") q then inl (ExternalError 503)
       else inr [official_video];
     extract_info := fun _ url => video url;
     perf_counter := clock |}.

Definition daft_punk : track := to_dict (sample_row "ISRC001" "Daft Punk" "One More Time").
Definition nobody : track := to_dict (sample_row "ISRC002" "Nobody" "Nothing").
Definition queen : track := to_dict (sample_row "ISRC003" "Queen" "Bohemian Rhapsody").

Definition task0 (tr : track) : task := {| t_track := tr; t_calls := 0; t_log := [] |}.

(** The track of "ISRC001" holding a confidence of 1.0 already, as an
    earlier attempt or a column of the input file leaves it. *)
Definition held_one : track := <[confidence_key := VFloat 1]> daft_punk.

(** A track whose artist and title have six words each. *)
Definition six_words : track :=
  to_dict (sample_row "ISRC006" "aa bb cc dd ee ff" "gg hh ii jj kk ll").

(* ================================================================== *)
(** * The claims at sample data *)

(** C1: with resume enabled and every input key already in the output file,
    no track is left: nothing is dispatched and nothing is written, and the
    script then ends in [ZeroDivisionError], raised by
    [execution_time/len(tracks)] in the final report. *)
Theorem empty_run_divides_by_zero (U : UnicodeData) (w : World) :
  main w true [[sample_row "ISRC001" "Daft Punk" "One More Time"]]
    (inr [sample_row "ISRC001" "Daft Punk" "One More Time"])
  = {| o_result := inl ZeroDivisionError; o_tracks := []; o_counters := counters0;
       o_calls := 0; o_written := None;
       o_log := [(INFO, MsgStarting); (INFO, MsgLoading); (INFO, MsgFound 1)] |}.
Proof. apply main_nothing_to_do. vm_compute; exact eq_refl. Qed.

(** C2: when both searches answer with an empty list the loop body never
    runs, line 122 reads a confidence that was never stored, and each of the
    five attempts ends in [KeyError]; the task counts the track as failed. *)
Theorem empty_search_fails_the_track (U : UnicodeData) :
  fst (extract_youtube_link no_results (task0 daft_punk))
  = inl (RetryError (KeyError "youtube_url_confidence"))
  /\ t_track (snd (extract_youtube_link no_results (task0 daft_punk))) !! confidence_key = None
  /\ t_calls (snd (extract_youtube_link no_results (task0 daft_punk))) = 10
  /\ r_counters (snd (perform_extraction no_results daft_punk 1 run0))
     = {| count := 1; total := 1; succeeded := 0; failed := 1 |}.
Proof. repeat split; vm_compute; exact eq_refl. Qed.

(** C8: six tokens of which none occurs in the long string add up to
    0.9999999999999999, not to 1: the distance of strings without a common
    token is the sum of [n] shares [1/n] added one by one in floats, which is
    exactly 1 up to five tokens and stays within [2^-45] of 1 up to a
    thousand, but misses 1 at 6, 7, 9, 10, 11, ... tokens; a short string
    without a token is at distance 0.  A result that matches nothing of a
    six-word artist and a six-word title then scores [2^-53], not 0. *)
Theorem missed_tokens_do_not_add_up_to_one (U : UnicodeData) :
  (Forall (fun token => re_search token (cs (text "zz")) = false)
     (short_tokens (cs (text "aa bb cc dd ee ff")))
   /\ length (short_tokens (cs (text "aa bb cc dd ee ff"))) = 6
   /\ get_asymmetric_token_distance (cs (text "aa bb cc dd ee ff")) (cs (text "zz"))
      = (0x1.fffffffffffffp-1%float, text "")
   /\ (0x1.fffffffffffffp-1 <? 1)%float = true)
  /\ (forall a b,
        Forall (fun token => re_search token (cs b) = false) (short_tokens (cs a)) ->
        get_asymmetric_token_distance (cs a) (cs b)
        = (all_missed (length (short_tokens (cs a))), text ""))
  /\ (forall n, 1 <= n <= 5 -> all_missed n = 1%float)
  /\ (forall n, 1 <= n <= 1000 -> near_one (all_missed n) = true)
  /\ List.map all_missed [6; 7; 9; 10; 11]
     = [0x1.fffffffffffffp-1; 0x1.ffffffffffffep-1; 0x1.0000000000001p+0;
        0x1.fffffffffffffp-1; 0x1.0000000000001p+0]%float
  /\ (forall a b, short_tokens (cs a) = [] ->
        get_asymmetric_token_distance (cs a) (cs b) = (0%float, text ""))
  /\ (exists c, score_of flaky six_words 0 unrelated = inr c
                 /\ artist_meta c = text "" /\ song_name_meta c = text ""
                 /\ confidence_score c = 0x1p-53%float
                 /\ (0 <? confidence_score c)%float = true).
Proof.
  split; [|split; [|split; [|split; [|split; [|split]]]]].
  - repeat split; try (vm_compute; exact eq_refl). vm_compute. repeat constructor.
  - intros a b Hnone. unfold get_asymmetric_token_distance.
    rewrite (fold_all_missed _ _ _ _ _ Hnone). reflexivity.
  - intros n Hn. apply all_missed_small. exact Hn.
  - intros n Hn. apply all_missed_near. exact Hn.
  - vm_compute. exact eq_refl.
  - intros a b Hempty. unfold get_asymmetric_token_distance. rewrite Hempty. reflexivity.
  - eexists. split; [vm_compute; exact eq_refl|]. repeat split.
Qed.

(** C7: with resume enabled, an output file that holds "ISRC001" and a key
    the input no longer has, and an input of "ISRC001" and "ISRC002", the
    subtraction raises and is caught, and "ISRC001" is loaded again with
    "ISRC002". *)
Theorem resume_reloads_known_key :
  fst (build_dataframe
         [[sample_row "ISRC001" "Daft Punk" "One More Time";
           sample_row "ISRC002" "Nobody" "Nothing"]]
         true
         (inr [sample_row "ISRC001" "Daft Punk" "One More Time";
               sample_row "ISRC999" "Queen" "Bohemian Rhapsody"])
         None)
  = inr [daft_punk; nobody].
Proof. vm_compute; exact eq_refl. Qed.

(** The same input with an output file whose keys are all in the input:
    "ISRC001" is skipped. *)
Example resume_skips_known_key :
  fst (build_dataframe
         [[sample_row "ISRC001" "Daft Punk" "One More Time";
           sample_row "ISRC002" "Nobody" "Nothing"]]
         true
         (inr [sample_row "ISRC001" "Daft Punk" "One More Time"])
         None)
  = inr [nobody].
Proof. vm_compute; exact eq_refl. Qed.


(** C5 at a scan of an unrelated video, a long mix, the official video and
    an unrelated video again. *)
Lemma best_confidence_only_rises_witness :
  exists best',
    t_track (snd (@scan ascii_only flaky 0 [unrelated; long_mix; official_video; unrelated]
                    (task0 daft_punk))) !! confidence_key = Some (VFloat best')
    /\ risen 0 best'.
Proof.
  edestruct (proj2 (proj2 (proj2 (best_confidence_only_rises ascii_only flaky)))
               unrelated [long_mix; official_video; unrelated] (task0 daft_punk))
    as (best' & Hbest & Hrisen).
  - vm_compute; exact eq_refl.
  - apply surjective_pairing.
  - exists best'. split; [exact Hbest|exact Hrisen].
Defined.

(** C5, counterexample: on a track that holds a confidence of 1.0 when the
    scan starts, the first result, which matches nothing, is stored all the
    same and the scan ends with a stored confidence of 0.0. *)
Lemma first_result_lowers_held_confidence :
  t_track (task0 held_one) !! confidence_key = Some (VFloat 1)
  /\ fst (@scan ascii_only flaky 0 [unrelated] (task0 held_one)) = inr tt
  /\ t_track (snd (@scan ascii_only flaky 0 [unrelated] (task0 held_one))) !! confidence_key
     = Some (VFloat 0)
  /\ (0 <? 1)%float = true
  /\ ~ risen 1 0.
Proof.
  repeat split; try (vm_compute; exact eq_refl).
  intros [H|H]; vm_compute in H; discriminate.
Qed.

(** C6 at a scan whose first result is a two-hour mix and whose second is
    unrelated. *)
Lemma long_result_wins_only_unbeaten_witness :
  t_track (snd (@scan ascii_only flaky 0 [long_mix; unrelated] (task0 daft_punk)))
    !! confidence_key = Some (VFloat 0).
Proof.
  apply (proj2 (long_result_wins_only_unbeaten ascii_only flaky)
           [long_mix; unrelated] (task0 daft_punk) _ 0 long_mix
           {| meta_duration := Seconds 7200; meta_str := text "{'id': 'mix'}" |} 7200%Z).
  - vm_compute; exact eq_refl.
  - vm_compute; exact eq_refl.
  - reflexivity.
  - vm_compute; exact eq_refl.
  - reflexivity.
  - lia.
Defined.


(* ================================================================== *)
(** * More of data_helpers.py *)

Unset Default Proof Using.

(** No opening bracket of [s] has a closing bracket after it on its line. *)
Fixpoint span_free (s : str) : bool :=
  match s with
  | [] => true
  | c :: r => (negb (is_open c) || bool_decide (close_offset r = None)) && span_free r
  end.

(** ** [ct] is idempotent *)

Lemma blank_spans_skip k : forall s, blank_spans k s = blank_spans 0 (drop k s).
Proof.
  induction k as [|k IH]; intros s; [rewrite drop_0; reflexivity|].
  destruct s as [|c r]; [reflexivity|]. cbn [blank_spans]. rewrite IH. reflexivity.
Qed.

Lemma span_free_fixed s : span_free s = true -> blank_spans 0 s = s.
Proof.
  induction s as [|c r IH]; [reflexivity|].
  cbn [span_free blank_spans]. rewrite andb_true_iff, orb_true_iff.
  intros [[Hc|Hc] Hr].
  - apply negb_true_iff in Hc. rewrite Hc, (IH Hr). reflexivity.
  - apply bool_decide_eq_true in Hc. rewrite Hc, (IH Hr).
    destruct (is_open c); reflexivity.
Qed.

Lemma is_open_not_close c : is_open c = true -> is_close c = false.
Proof.
  unfold is_open, is_close. rewrite orb_true_iff, !N.eqb_eq.
  intros [-> | ->]; reflexivity.
Qed.

Lemma is_open_not_newline c : is_open c = true -> N.eqb c Char.newline = false.
Proof.
  unfold is_open. rewrite orb_true_iff, !N.eqb_eq. intros [-> | ->]; reflexivity.
Qed.

(** A line without a closing bracket keeps none under the substitution. *)
Lemma close_offset_blank_spans s :
  close_offset s = None -> close_offset (blank_spans 0 s) = None.
Proof.
  induction s as [|c r IH]; [reflexivity|].
  cbn [close_offset blank_spans].
  destruct (is_close c) eqn:Hclose; [discriminate|].
  destruct (N.eqb c Char.newline) eqn:Hnl.
  - intros _. destruct (is_open c) eqn:Hopen.
    + rewrite (is_open_not_newline c Hopen) in Hnl. discriminate.
    + cbn [close_offset]. rewrite Hclose, Hnl. reflexivity.
  - intros H. destruct (close_offset r) as [n|] eqn:Hr; [discriminate|].
    assert (E : close_offset (c :: blank_spans 0 r) = None).
    { cbn [close_offset]. rewrite Hclose, Hnl, (IH eq_refl). reflexivity. }
    destruct (is_open c); exact E.
Qed.

Lemma blank_spans_span_free_len n : forall s, length s <= n -> span_free (blank_spans 0 s) = true.
Proof.
  induction n as [|n IH]; intros s Hlen.
  - destruct s; [reflexivity|simpl in Hlen; lia].
  - destruct s as [|c r]; [reflexivity|]. simpl in Hlen.
    cbn [blank_spans]. destruct (is_open c) eqn:Hopen.
    + destruct (close_offset r) as [k|] eqn:Hr.
      * rewrite blank_spans_skip. cbn [span_free]. rewrite IH; [reflexivity|].
        rewrite length_drop. lia.
      * cbn [span_free]. rewrite (close_offset_blank_spans r Hr), IH by lia.
        rewrite bool_decide_eq_true_2 by reflexivity. rewrite orb_true_r. reflexivity.
    + cbn [span_free]. rewrite Hopen, IH by lia. reflexivity.
Qed.

Lemma blank_spans_span_free s : span_free (blank_spans 0 s) = true.
Proof. exact (blank_spans_span_free_len (length s) s (le_n _)). Qed.

Lemma close_offset_squeeze b s :
  close_offset s = None -> close_offset (squeeze is_sp b s) = None.
Proof.
  revert b. induction s as [|c r IH]; intros b; [reflexivity|].
  cbn [close_offset squeeze].
  destruct (is_close c) eqn:Hclose; [discriminate|].
  destruct (N.eqb c Char.newline) eqn:Hnl.
  - intros _. destruct (is_sp c) eqn:Hsp.
    + apply N.eqb_eq in Hsp. subst c. discriminate.
    + cbn [close_offset]. rewrite Hclose, Hnl. reflexivity.
  - intros H. destruct (close_offset r) as [n|] eqn:Hr; [discriminate|].
    destruct (is_sp c) eqn:Hsp.
    + destruct b; [exact (IH true eq_refl)|].
      cbn [close_offset]. rewrite (IH true eq_refl). reflexivity.
    + cbn [close_offset]. rewrite Hclose, Hnl, (IH false eq_refl). reflexivity.
Qed.

Lemma span_free_squeeze b s : span_free s = true -> span_free (squeeze is_sp b s) = true.
Proof.
  revert b. induction s as [|c r IH]; intros b; [reflexivity|].
  cbn [span_free squeeze]. rewrite andb_true_iff. intros [Hc Hr].
  destruct (is_sp c) eqn:Hsp.
  - destruct b; [exact (IH true Hr)|].
    cbn [span_free]. rewrite (IH true Hr). reflexivity.
  - cbn [span_free]. rewrite (IH false Hr), andb_true_r.
    apply orb_true_iff in Hc as [Hc|Hc]; [rewrite Hc; reflexivity|].
    apply bool_decide_eq_true in Hc. rewrite (close_offset_squeeze false r Hc).
    rewrite bool_decide_eq_true_2 by reflexivity. apply orb_true_r.
Qed.

Lemma span_free_suffix l s : span_free (l ++ s) = true -> span_free s = true.
Proof.
  induction l as [|c l IH]; [auto|]. cbn [app span_free].
  rewrite andb_true_iff. intros [_ H]. exact (IH H).
Qed.

Lemma close_offset_prefix l m : close_offset (l ++ m) = None -> close_offset l = None.
Proof.
  induction l as [|c l IH]; [reflexivity|]. cbn [app close_offset].
  destruct (is_close c); [discriminate|]. destruct (N.eqb c Char.newline); [reflexivity|].
  destruct (close_offset (l ++ m)) eqn:E; [discriminate|]. rewrite (IH eq_refl). reflexivity.
Qed.

Lemma span_free_prefix l m : span_free (l ++ m) = true -> span_free l = true.
Proof.
  induction l as [|c l IH]; [reflexivity|]. cbn [app span_free].
  rewrite !andb_true_iff. intros [Hc H]. split; [|exact (IH H)].
  apply orb_true_iff in Hc as [Hc|Hc]; [rewrite Hc; reflexivity|].
  apply bool_decide_eq_true in Hc. rewrite (close_offset_prefix l m Hc).
  rewrite bool_decide_eq_true_2 by reflexivity. apply orb_true_r.
Qed.

Lemma str_strip_infix s : exists l m, s = l ++ str_strip s ++ m.
Proof.
  unfold str_strip.
  destruct (drop_while_suffix Char.isspace s) as [l Hl].
  destruct (drop_while_suffix Char.isspace (rev (drop_while Char.isspace s))) as [m Hm].
  exists l, (rev m). rewrite <- rev_app_distr, <- Hm, rev_involutive. exact Hl.
Qed.

Lemma span_free_strip s : span_free s = true -> span_free (str_strip s) = true.
Proof.
  intros H. destruct (str_strip_infix s) as (l & m & E). rewrite E in H.
  apply span_free_suffix in H. exact (span_free_prefix _ _ H).
Qed.

(** X1: [ct] applied to its own result changes nothing. *)
Theorem ct_idempotent (s : str) : ct (ct s) = ct s.
Proof.
  assert (Hfree : span_free (ct s) = true).
  { unfold ct. apply span_free_strip. change (N.eqb Char.space) with is_sp.
    apply span_free_squeeze, blank_spans_span_free. }
  unfold ct at 1. unfold re_sub_spans. rewrite (span_free_fixed _ Hfree).
  unfold re_sub_runs. change (N.eqb Char.space) with is_sp.
  rewrite squeeze_sp_fixed.
  - unfold ct. apply str_strip_idem.
  - unfold ct. apply str_strip_single_spaced. change (N.eqb Char.space) with is_sp.
    apply squeeze_single_spaced.
  - discriminate.
Qed.

(** ** [cjk_detect] *)

Lemma existsb_Permutation {A} (p : A -> bool) l l' :
  Permutation l l' -> existsb p l = existsb p l'.
Proof.
  induction 1 as [|x l l' _ IH|x y l|l l' l'' _ IH1 _ IH2]; cbn.
  - reflexivity.
  - rewrite IH. reflexivity.
  - destruct (p x), (p y); reflexivity.
  - congruence.
Qed.

Definition in_five_ranges (c : N) : bool :=
  Char.is_korean c || Char.is_japanese c || Char.is_chinese c
  || Char.is_cyrillic c || Char.is_thai c.

Lemma existsb_false_Forall {A} (p : A -> bool) l :
  existsb p l = false <-> Forall (fun x => p x = false) l.
Proof.
  induction l as [|x l IH]; cbn.
  - split; [constructor|reflexivity].
  - rewrite orb_false_iff, IH. split.
    + intros [Hx Hl]. constructor; assumption.
    + intros H. inversion H; subst. auto.
Qed.

(** A text has a character of the range [p]. *)
Definition has (p : N -> bool) (texts : str) : Prop := Exists (fun c => p c = true) texts.

Lemma existsb_has p texts : existsb p texts = true <-> has p texts.
Proof.
  unfold has. rewrite existsb_exists, List.Exists_exists. reflexivity.
Qed.

Lemma existsb_not_has p texts : existsb p texts = false <-> ~ has p texts.
Proof. rewrite <- existsb_has. destruct (existsb p texts); split; congruence. Qed.

(** X2: [cjk_detect] answers by a fixed priority, whatever the order of the
    characters: "ko" exactly when the text has a Hangul syllable; "ja" when
    it has none but a Hiragana or Katakana character; "zh" when it has
    neither but a CJK ideograph; "cy" when it has none of these but a
    Cyrillic character; "th" when it has none of these but a Thai character;
    and [None] exactly when it has no character of the five ranges, so for
    every ASCII text.  A permutation of the text gets the same answer. *)
Theorem cjk_detect_by_script (texts : str) :
  (cjk_detect texts = Some "ko" <-> has Char.is_korean texts)
  /\ (cjk_detect texts = Some "ja" <->
      ~ has Char.is_korean texts /\ has Char.is_japanese texts)
  /\ (cjk_detect texts = Some "zh" <->
      ~ has Char.is_korean texts /\ ~ has Char.is_japanese texts
      /\ has Char.is_chinese texts)
  /\ (cjk_detect texts = Some "cy" <->
      ~ has Char.is_korean texts /\ ~ has Char.is_japanese texts
      /\ ~ has Char.is_chinese texts /\ has Char.is_cyrillic texts)
  /\ (cjk_detect texts = Some "th" <->
      ~ has Char.is_korean texts /\ ~ has Char.is_japanese texts
      /\ ~ has Char.is_chinese texts /\ ~ has Char.is_cyrillic texts
      /\ has Char.is_thai texts)
  /\ (cjk_detect texts = None <-> Forall (fun c => in_five_ranges c = false) texts)
  /\ (all_ascii texts = true -> cjk_detect texts = None)
  /\ (forall texts', Permutation texts texts' -> cjk_detect texts' = cjk_detect texts).
Proof.
  assert (Hscripts :
    (cjk_detect texts = Some "ko" <-> has Char.is_korean texts)
    /\ (cjk_detect texts = Some "ja" <->
        ~ has Char.is_korean texts /\ has Char.is_japanese texts)
    /\ (cjk_detect texts = Some "zh" <->
        ~ has Char.is_korean texts /\ ~ has Char.is_japanese texts
        /\ has Char.is_chinese texts)
    /\ (cjk_detect texts = Some "cy" <->
        ~ has Char.is_korean texts /\ ~ has Char.is_japanese texts
        /\ ~ has Char.is_chinese texts /\ has Char.is_cyrillic texts)
    /\ (cjk_detect texts = Some "th" <->
        ~ has Char.is_korean texts /\ ~ has Char.is_japanese texts
        /\ ~ has Char.is_chinese texts /\ ~ has Char.is_cyrillic texts
        /\ has Char.is_thai texts)).
  { unfold cjk_detect.
    destruct (existsb Char.is_korean texts) eqn:E1;
      [apply existsb_has in E1|apply existsb_not_has in E1];
    (destruct (existsb Char.is_japanese texts) eqn:E2;
      [apply existsb_has in E2|apply existsb_not_has in E2]);
    (destruct (existsb Char.is_chinese texts) eqn:E3;
      [apply existsb_has in E3|apply existsb_not_has in E3]);
    (destruct (existsb Char.is_cyrillic texts) eqn:E4;
      [apply existsb_has in E4|apply existsb_not_has in E4]);
    (destruct (existsb Char.is_thai texts) eqn:E5;
      [apply existsb_has in E5|apply existsb_not_has in E5]);
    repeat split; intros; try discriminate; try tauto. }
  destruct Hscripts as (Hko & Hja & Hzh & Hcy & Hth).
  split; [exact Hko|]. split; [exact Hja|]. split; [exact Hzh|].
  split; [exact Hcy|]. split; [exact Hth|].
  assert (Hnone : cjk_detect texts = None
                  <-> Forall (fun c => in_five_ranges c = false) texts).
  { unfold cjk_detect. split.
    - intros H.
      destruct (existsb Char.is_korean texts) eqn:E1; [discriminate|].
      destruct (existsb Char.is_japanese texts) eqn:E2; [discriminate|].
      destruct (existsb Char.is_chinese texts) eqn:E3; [discriminate|].
      destruct (existsb Char.is_cyrillic texts) eqn:E4; [discriminate|].
      destruct (existsb Char.is_thai texts) eqn:E5; [discriminate|].
      rewrite existsb_false_Forall in E1, E2, E3, E4, E5.
      rewrite List.Forall_forall in *. intros c Hc. unfold in_five_ranges.
      rewrite (E1 c Hc), (E2 c Hc), (E3 c Hc), (E4 c Hc), (E5 c Hc). reflexivity.
    - intros H.
      assert (Hall : forall p, (forall c, in_five_ranges c = false -> p c = false) ->
                               existsb p texts = false).
      { intros p Hp. apply existsb_false_Forall. eapply Forall_impl; [exact H|exact Hp]. }
      rewrite !Hall; [reflexivity| | | | |]; intros c; unfold in_five_ranges;
        rewrite !orb_false_iff; tauto. }
  split; [exact Hnone|]. split.
  - intros Hascii. apply Hnone. unfold all_ascii in Hascii. rewrite forallb_forall in Hascii.
    apply List.Forall_forall. intros c Hc. specialize (Hascii c Hc).
    unfold Char.is_ascii in Hascii. apply N.ltb_lt in Hascii.
    unfold in_five_ranges, Char.is_korean, Char.is_japanese, Char.is_chinese,
      Char.is_cyrillic, Char.is_thai, Char.in_range.
    rewrite !orb_false_iff, !andb_false_iff, !N.leb_gt. lia.
  - intros texts' Hperm. unfold cjk_detect.
    rewrite <- !(existsb_Permutation _ _ _ Hperm). reflexivity.
Qed.

(** ** The shape of a cleaned string *)

Lemma drop_while_head p s c l : drop_while p s = c :: l -> p c = false.
Proof.
  induction s as [|a r IH]; cbn; [discriminate|].
  destruct (p a) eqn:Ha; [exact IH|]. intros [= <- _]. exact Ha.
Qed.

Lemma str_strip_head s c l : str_strip s = c :: l -> Char.isspace c = false.
Proof.
  intros H. apply (drop_while_head Char.isspace (str_strip s) c l).
  unfold str_strip in *.
  rewrite (drop_while_fixed_rev _ _ (drop_while_idem Char.isspace s)). exact H.
Qed.

Lemma str_strip_last s c l : str_strip s = l ++ [c] -> Char.isspace c = false.
Proof.
  unfold str_strip. intros H.
  apply (f_equal (@rev N)) in H. rewrite rev_involutive, rev_app_distr in H. cbn in H.
  exact (drop_while_head _ _ _ _ H).
Qed.

(** X3: A cleaned string never starts or ends with a space and never has two
    spaces in a row. *)
Theorem cs_spacing (U : UnicodeData) (s : str) :
  single_spaced (cs s)
  /\ (forall l, cs s <> Char.space :: l)
  /\ (forall l, cs s <> l ++ [Char.space]).
Proof.
  split; [apply cs_single_spaced|]. split; intros l H.
  - rewrite <- cs_stripped in H. apply str_strip_head in H. discriminate.
  - rewrite <- cs_stripped in H. apply str_strip_last in H. discriminate.
Qed.

(** ** Cleaning ASCII text *)

Definition plain (c : N) : Prop := Char.is_ascii c = true /\ Char.is_upper c = false.

Lemma plain_space : plain Char.space.
Proof. split; reflexivity. Qed.

Lemma blank_spans_Forall (P : N -> Prop) k s :
  P Char.space -> Forall P s -> Forall P (blank_spans k s).
Proof.
  intros Hsp H. revert k. induction H as [|c r Hc Hr IH]; intros k; cbn [blank_spans].
  - constructor.
  - destruct k as [|k]; [|apply IH].
    destruct (is_open c).
    + destruct (close_offset r); constructor; auto.
    + constructor; auto.
Qed.

Lemma replace_char_Forall (P : N -> Prop) a b s :
  P b -> Forall P s -> Forall P (replace_char a b s).
Proof.
  intros Hb H. unfold replace_char. induction H as [|c r Hc _ IH]; cbn; constructor; auto.
  destruct (N.eqb c a); assumption.
Qed.

Lemma delete_matches_Forall (P : N -> Prop) p k s :
  Forall P s -> Forall P (delete_matches p k s).
Proof.
  intros H. revert k. induction H as [|c r Hc _ IH]; intros k; cbn [delete_matches].
  - constructor.
  - destruct k; [|apply IH]. destruct (match_here p (c :: r)); [apply IH|constructor; auto].
Qed.

Lemma filter_Forall (P : N -> Prop) f s : Forall P s -> Forall P (List.filter f s).
Proof.
  induction 1 as [|c r Hc _ IH]; cbn; [constructor|].
  destruct (f c); [constructor|]; assumption.
Qed.

Lemma plain_all_ascii s : Forall plain s -> all_ascii s = true.
Proof.
  intros H. unfold all_ascii. apply forallb_forall. rewrite List.Forall_forall in H.
  intros c Hc. exact (proj1 (H c Hc)).
Qed.

Lemma ascii_lower_plain c : Char.is_ascii c = true -> plain (Char.ascii_lower c).
Proof.
  unfold plain, Char.ascii_lower, Char.is_ascii, Char.is_upper, Char.in_range.
  intros H. apply N.ltb_lt in H.
  destruct ((65 <=? c)%N && (c <=? 90)%N) eqn:E.
  - apply andb_true_iff in E as [E1 E2]. apply N.leb_le in E1, E2.
    split; [apply N.ltb_lt; lia|]. apply andb_false_iff. right. apply N.leb_gt. lia.
  - split; [apply N.ltb_lt; lia|exact E].
Qed.

Section CleanAscii.
Context {U : UnicodeData}.

Lemma str_lower_plain s : all_ascii s = true -> Forall plain (str_lower s).
Proof.
  intros H. unfold str_lower. rewrite H. unfold all_ascii in H.
  rewrite forallb_forall in H. apply List.Forall_forall. intros c Hc.
  apply in_map_iff in Hc as (a & <- & Ha). exact (ascii_lower_plain a (H a Ha)).
Qed.

Lemma remove_accents_plain s : Forall plain s -> remove_accents s = s.
Proof.
  intros H. unfold remove_accents, normalize_NFD. rewrite (plain_all_ascii s H).
  induction H as [|c r Hc _ IH]; cbn; [reflexivity|].
  unfold category_is_Mn at 1. rewrite (proj1 Hc). cbn. rewrite IH. reflexivity.
Qed.

Lemma str_lower_fixed s : Forall plain s -> str_lower s = s.
Proof.
  intros H. unfold str_lower. rewrite (plain_all_ascii s H).
  induction H as [|c r Hc _ IH]; cbn; [reflexivity|].
  unfold Char.ascii_lower at 1. rewrite (proj2 Hc), IH. reflexivity.
Qed.

Lemma cs_plain s : all_ascii s = true -> Forall plain (cs s).
Proof.
  intros H. unfold cs. apply str_strip_Forall.
  apply squeeze_Forall; [exact plain_space|]. intros c Hc _. revert c Hc.
  apply List.Forall_forall.
  apply squeeze_Forall; [exact plain_space|]. intros c Hc _. revert c Hc.
  apply List.Forall_forall.
  unfold re_sub_delete. do 4 apply delete_matches_Forall.
  rewrite remove_accents_plain;
    repeat (apply replace_char_Forall; [exact plain_space|]);
    unfold re_sub_spans; apply blank_spans_Forall;
    try exact plain_space; apply str_lower_plain; exact H.
Qed.
End CleanAscii.

(** X4: For ASCII input the cleaned string is ASCII without upper-case letters,
    and lower-casing and accent removal leave it as it is. *)
Theorem cs_ascii_settled (U : UnicodeData) (s : str) :
  all_ascii s = true ->
  all_ascii (cs s) = true
  /\ Forall (fun c => Char.is_upper c = false) (cs s)
  /\ str_lower (cs s) = cs s
  /\ remove_accents (cs s) = cs s.
Proof.
  intros H. pose proof (cs_plain s H) as Hp.
  split; [exact (plain_all_ascii _ Hp)|]. split.
  - eapply Forall_impl; [exact Hp|]. intros c Hc. exact (proj2 Hc).
  - split; [exact (str_lower_fixed _ Hp)|exact (remove_accents_plain _ Hp)].
Qed.

Lemma cs_ascii_settled_witness :
  all_ascii (@cs ascii_only (text "Daft Punk (Live) & Friends")) = true.
Proof.
  apply (cs_ascii_settled ascii_only (text "Daft Punk (Live) & Friends")).
  vm_compute; exact eq_refl.
Defined.

(** ** Splitting and joining *)

Definition sp : str := text " ".

(** No whitespace but the space. *)
Definition only_spaces (s : str) : Prop :=
  Forall (fun c => Char.isspace c = true -> c = Char.space) s.

Lemma split_from_nonempty cur s c r :
  s = c :: r -> Char.isspace c = false -> split_from cur s <> [].
Proof.
  intros -> Hc. cbn [split_from]. rewrite Hc. clear Hc. revert c cur.
  induction r as [|a r IH]; intros c cur; cbn [split_from].
  - discriminate.
  - destruct (Char.isspace a); [discriminate|apply IH].
Qed.

Lemma str_join_cons x rest : rest <> [] -> str_join sp (x :: rest) = x ++ sp ++ str_join sp rest.
Proof. destruct rest; [congruence|reflexivity]. Qed.

Lemma join_split_from s : forall cur,
  only_spaces s -> single_spaced s -> (forall l, s <> l ++ [Char.space]) ->
  (cur = [] -> forall l, s <> Char.space :: l) ->
  str_join sp (split_from cur s) = rev cur ++ s.
Proof.
  induction s as [|c r IH]; intros cur Hws Hss Hend Hstart; cbn [split_from].
  - rewrite app_nil_r. destruct cur; reflexivity.
  - apply Forall_cons in Hws as [Hc Hws].
    assert (Hend' : forall l, r <> l ++ [Char.space]).
    { intros l ->. exact (Hend (c :: l) eq_refl). }
    destruct (Char.isspace c) eqn:Hsp.
    + specialize (Hc eq_refl). subst c.
      destruct cur as [|a cur]; [exfalso; exact (Hstart eq_refl r eq_refl)|].
      assert (Hr : forall l, r <> Char.space :: l).
      { intros l ->. exact (Hss [] l eq_refl). }
      destruct r as [|b r'].
      { exfalso. exact (Hend [] eq_refl). }
      assert (Hb : Char.isspace b = false).
      { destruct (Char.isspace b) eqn:E; [|reflexivity].
        apply Forall_cons in Hws as [Hb _]. specialize (Hb E). subst b.
        exfalso. exact (Hr r' eq_refl). }
      rewrite str_join_cons by exact (split_from_nonempty [] (b :: r') b r' eq_refl Hb).
      rewrite (IH []); [|exact Hws|exact (single_spaced_tail _ _ Hss)|exact Hend'|].
      * cbn [rev app]. rewrite <- !app_assoc. reflexivity.
      * intros _. exact Hr.
    + rewrite (IH (c :: cur)); [|exact Hws|exact (single_spaced_tail _ _ Hss)|exact Hend'|].
      * cbn [rev]. rewrite <- app_assoc. reflexivity.
      * discriminate.
Qed.

Lemma split_from_word x : forall cur s,
  Forall (fun c => Char.isspace c = false) x ->
  split_from cur (x ++ s) = split_from (rev x ++ cur) s.
Proof.
  induction x as [|c x IH]; intros cur s H; [reflexivity|].
  apply Forall_cons in H as [Hc Hx]. cbn [app split_from]. rewrite Hc.
  rewrite (IH (c :: cur) s Hx). cbn [rev]. rewrite <- app_assoc. reflexivity.
Qed.

Definition word (x : str) : Prop := x <> [] /\ Forall (fun c => Char.isspace c = false) x.

Lemma split_join tokens : Forall word tokens -> str_split (str_join sp tokens) = tokens.
Proof.
  unfold str_split. induction 1 as [|x rest [Hne Hx] Hrest IH]; [reflexivity|].
  destruct rest as [|y rest'].
  - cbn [str_join]. rewrite <- (app_nil_r x) at 1. rewrite (split_from_word x [] [] Hx).
    rewrite app_nil_r. cbn [split_from].
    destruct (rev x) eqn:E; [|rewrite <- E, rev_involutive; reflexivity].
    apply (f_equal (@rev N)) in E. rewrite rev_involutive in E. contradiction.
  - rewrite str_join_cons by discriminate.
    rewrite (split_from_word x [] _ Hx), app_nil_r.
    change (sp ++ str_join sp (y :: rest')) with (Char.space :: str_join sp (y :: rest')).
    cbn [split_from]. change (Char.isspace Char.space) with true. cbn match.
    destruct (rev x) eqn:E.
    + apply (f_equal (@rev N)) in E. rewrite rev_involutive in E. contradiction.
    + rewrite <- E, rev_involutive, IH. reflexivity.
Qed.

Lemma cs_only_spaces (U : UnicodeData) s : only_spaces (cs s).
Proof.
  eapply Forall_impl; [apply cs_kept|]. intros c Hk Hsp. exact (isspace_kept c Hsp Hk).
Qed.

(** X5: Splitting a cleaned string and joining the tokens with one space gives
    the string back; and joining words (non-empty, without whitespace) with
    one space and splitting gives the words back. *)
Theorem split_join_round_trip (U : UnicodeData) :
  (forall s, str_join sp (str_split (cs s)) = cs s)
  /\ (forall tokens, Forall word tokens -> str_split (str_join sp tokens) = tokens).
Proof.
  split; [|exact split_join].
  intros s. unfold str_split. rewrite join_split_from; [reflexivity| | | |].
  - apply cs_only_spaces.
  - apply cs_single_spaced.
  - intros l H. rewrite <- cs_stripped in H. apply str_strip_last in H. discriminate.
  - intros _ l H. rewrite <- cs_stripped in H. apply str_strip_head in H. discriminate.
Qed.

Lemma split_join_round_trip_witness :
  str_split (str_join sp [text "daft"; text "punk"]) = [text "daft"; text "punk"].
Proof.
  apply (proj2 (split_join_round_trip ascii_only)).
  repeat constructor; try discriminate.
Defined.

(** ** The distance, token by token *)

(** The tokens that occur in [str_long], and those that do not. *)
Definition found_in (str_long : str) (tokens : list str) : list str :=
  List.filter (fun token => re_search token str_long) tokens.

Definition missed_in (str_long : str) (tokens : list str) : list str :=
  List.filter (fun token => negb (re_search token str_long)) tokens.

Lemma fold_distance n long tokens : forall d best,
  fold_left (distance_step n long) tokens (d, best)
  = (Nat.iter (length (missed_in long tokens)) (add_share n) d, best ++ found_in long tokens).
Proof.
  induction tokens as [|token rest IH]; intros d best; cbn [fold_left].
  - cbn. rewrite app_nil_r. reflexivity.
  - unfold distance_step at 2. unfold missed_in, found_in. cbn [List.filter].
    destruct (re_search token long) eqn:E; cbn [negb].
    + rewrite IH. unfold missed_in, found_in. rewrite <- app_assoc. reflexivity.
    + rewrite IH. unfold missed_in, found_in. cbn [length].
      change (d + 1 / Py.of_nat n)%float with (add_share n d).
      rewrite iter_add_share. reflexivity.
Qed.

Lemma filter_all {A} (p : A -> bool) l : Forall (fun x => p x = true) l -> List.filter p l = l.
Proof. induction 1 as [|x l Hx _ IH]; cbn; [reflexivity|]. rewrite Hx, IH. reflexivity. Qed.

Lemma filter_none {A} (p : A -> bool) l : Forall (fun x => p x = true) l -> List.filter (fun x => negb (p x)) l = [].
Proof. induction 1 as [|x l Hx _ IH]; cbn; [reflexivity|]. rewrite Hx. exact IH. Qed.

(** X6: Between two cleaned strings, the distance is one share [1/n] for each
    of the [n] tokens of the short one that does not occur in the long one,
    added up in floats, so it depends on how many tokens are missed and not
    on which or in which order; the matched text is the tokens that occur, in
    order.  When every token occurs the distance is exactly 0. *)
Theorem distance_counts_missed (U : UnicodeData) (a b : str) :
  get_asymmetric_token_distance (cs a) (cs b)
  = (sum_shares (length (missed_in (cs b) (short_tokens (cs a))))
       (1 / Py.of_nat (length (short_tokens (cs a)))),
     str_join sp (found_in (cs b) (short_tokens (cs a))))
  /\ (Forall (fun token => re_search token (cs b) = true) (short_tokens (cs a)) ->
      get_asymmetric_token_distance (cs a) (cs b)
      = (0%float, str_join sp (short_tokens (cs a)))).
Proof.
  generalize (cs a) (cs b). intros str_short str_long.
  assert (E : get_asymmetric_token_distance str_short str_long
              = (sum_shares (length (missed_in str_long (short_tokens str_short)))
                   (1 / Py.of_nat (length (short_tokens str_short))),
                 str_join sp (found_in str_long (short_tokens str_short)))).
  { unfold get_asymmetric_token_distance. rewrite fold_distance. reflexivity. }
  split; [exact E|]. intros Hall. rewrite E.
  unfold missed_in, found_in. rewrite (filter_none _ _ Hall), (filter_all _ _ Hall).
  reflexivity.
Qed.

Lemma distance_counts_missed_witness :
  get_asymmetric_token_distance (@cs ascii_only (text "One More Time"))
    (@cs ascii_only (text "Daft Punk - One More Time"))
  = (0%float, str_join sp (short_tokens (@cs ascii_only (text "One More Time")))).
Proof.
  apply (proj2 (distance_counts_missed ascii_only (text "One More Time")
                  (text "Daft Punk - One More Time"))).
  vm_compute. repeat constructor.
Defined.

(** ** The distance of a string to itself *)

Lemma split_from_infix s : forall cur token,
  In token (split_from cur s) -> exists l m, rev cur ++ s = l ++ token ++ m.
Proof.
  induction s as [|c r IH]; intros cur token; cbn [split_from].
  - destruct cur as [|a cur]; [intros []|]. intros [<-|[]].
    exists [], []. rewrite !app_nil_r. reflexivity.
  - destruct (Char.isspace c).
    + destruct cur as [|a cur].
      * intros H. destruct (IH [] token H) as (l & m & E). cbn in E.
        exists (c :: l), m. cbn. rewrite E. reflexivity.
      * intros [<-|H].
        -- exists [], (c :: r). reflexivity.
        -- destruct (IH [] token H) as (l & m & E). cbn in E.
           exists (rev (a :: cur) ++ c :: l), m. rewrite E, <- !app_assoc. reflexivity.
    + intros H. destruct (IH (c :: cur) token H) as (l & m & E).
      exists l, m. rewrite <- E. cbn [rev]. rewrite <- app_assoc. reflexivity.
Qed.

Lemma match_here_self token m : match_here (List.map Lit token) (token ++ m) = true.
Proof.
  induction token as [|c token IH]; [destruct m; reflexivity|].
  cbn. rewrite N.eqb_refl. exact IH.
Qed.

Lemma pattern_occurs_skip p l s : pattern_occurs p s = true -> pattern_occurs p (l ++ s) = true.
Proof.
  induction l as [|c l IH]; [auto|]. intros H. cbn [app pattern_occurs].
  rewrite (IH H). apply orb_true_r.
Qed.

Lemma re_search_infix token l m : re_search token (l ++ token ++ m) = true.
Proof.
  unfold re_search. apply pattern_occurs_skip.
  destruct (token ++ m) eqn:E; cbn [pattern_occurs]; rewrite <- E, match_here_self; reflexivity.
Qed.

Lemma split_token_occurs s token : In token (str_split s) -> re_search token s = true.
Proof.
  intros H. destruct (split_from_infix s [] token H) as (l & m & E). cbn in E.
  rewrite E. apply re_search_infix.
Qed.

Lemma filter_In_sub {A} (p : A -> bool) l x : In x (List.filter p l) -> In x l.
Proof. intros H. apply filter_In in H. tauto. Qed.

(** X7: A cleaned string with at most one one-letter word is at distance 0 from
    itself: each of its tokens occurs in it.  (With two one-letter words that
    are not side by side, as in "a bb c", the joined token "a c" does not
    occur, and the distance is 0.5.) *)
Theorem self_distance_zero (U : UnicodeData) (a : str) :
  length (List.filter (fun x => Nat.eqb (length x) 1) (str_split (cs a))) <= 1 ->
  get_asymmetric_token_distance (cs a) (cs a)
  = (0%float, str_join sp (short_tokens (cs a))).
Proof.
  generalize (cs a). intros s Hone.
  assert (Hall : Forall (fun token => re_search token s = true) (short_tokens s)).
  { apply List.Forall_forall. intros token Hin. unfold short_tokens in Hin.
    destruct (List.filter (fun x => Nat.eqb (length x) 1) (str_split s)) as [|x rest] eqn:E.
    - cbn in Hin. apply filter_In_sub in Hin. exact (split_token_occurs s token Hin).
    - destruct rest as [|y rest]; [|cbn in Hone; lia]. cbn [length Nat.ltb Nat.leb] in Hin.
      apply in_app_or in Hin as [Hin|[<-|[]]].
      + apply filter_In_sub in Hin. exact (split_token_occurs s token Hin).
      + cbn [str_join]. apply split_token_occurs.
        apply (filter_In_sub (fun x => Nat.eqb (length x) 1)). rewrite E. left. reflexivity. }
  unfold get_asymmetric_token_distance. rewrite fold_distance.
  unfold missed_in, found_in. rewrite (filter_none _ _ Hall), (filter_all _ _ Hall).
  reflexivity.
Qed.

Lemma self_distance_zero_witness :
  get_asymmetric_token_distance (@cs ascii_only (text "One More Time"))
    (@cs ascii_only (text "One More Time"))
  = (0%float, str_join sp (short_tokens (@cs ascii_only (text "One More Time")))).
Proof. apply (self_distance_zero ascii_only (text "One More Time")). vm_compute. lia. Defined.

Example self_distance_with_two_letters :
  fst (get_asymmetric_token_distance (@cs ascii_only (text "A bb C"))
         (@cs ascii_only (text "A bb C"))) = 0.5%float.
Proof. vm_compute. reflexivity. Qed.

(* ================================================================== *)
(** * More of extraction_helpers.py *)

(** The columns [extract_youtube_link] writes. *)
Definition written_columns : list string :=
  ["search_terms"; "cleaned_artist"; "cleaned_song_name"] ++ best_columns.

Definition official_true : Val := VStr (text "TRUE").

(** ** What an extraction does to the track, for a relation on tracks *)

Section TrackRelation.
Context {U : UnicodeData} (w : World).
Variable R : track -> track -> Prop.
Hypothesis R_refl : forall tr, R tr tr.
Hypothesis R_trans : forall a b c, R a b -> R b c -> R a c.
Hypothesis R_set : forall key v tr,
  In key written_columns -> key <> "official" -> R tr (<[key := v]> tr).
Hypothesis R_official : forall tr, R tr (<["official" := official_true]> tr).

Definition keeps {A} (m : Task A) : Prop :=
  forall st r st', m st = (r, st') -> R (t_track st) (t_track st').

Lemma keeps_same_track {A} (m : Task A) :
  (forall st r st', m st = (r, st') -> t_track st' = t_track st) -> keeps m.
Proof. intros H st r st' E. rewrite (H st r st' E). apply R_refl. Qed.

Lemma keeps_ret {A} (a : A) : keeps (mret a).
Proof. apply keeps_same_track. intros st r st' [= _ <-]. reflexivity. Qed.

Lemma keeps_raise {A} e : keeps (@raise A e).
Proof. apply keeps_same_track. intros st r st' [= _ <-]. reflexivity. Qed.

Lemma keeps_bind {A B} (m : Task A) (k : A -> Task B) :
  keeps m -> (forall a, keeps (k a)) -> keeps (m ≫= k).
Proof.
  intros Hm Hk st r st'. rewrite bind_run.
  destruct (m st) as [[e|a] st1] eqn:E.
  - intros [= _ <-]. exact (Hm _ _ _ E).
  - intros E2. exact (R_trans _ _ _ (Hm _ _ _ E) (Hk a _ _ _ E2)).
Qed.

Lemma keeps_get_item key : keeps (get_item key).
Proof.
  apply keeps_same_track. intros st r st'. unfold get_item.
  destruct (t_track st !! key); intros [= _ <-]; reflexivity.
Qed.

Lemma keeps_get_text key : keeps (get_text key).
Proof.
  apply keeps_bind; [apply keeps_get_item|]. intros [s|x|z];
    [apply keeps_ret|apply keeps_raise|apply keeps_raise].
Qed.

Lemma keeps_get_number key : keeps (get_number key).
Proof.
  apply keeps_bind; [apply keeps_get_item|]. intros v.
  destruct (as_number v); [apply keeps_ret|apply keeps_raise].
Qed.

Lemma keeps_search q n : keeps (YoutubeSearch w q n).
Proof.
  apply keeps_same_track. intros st r st'. unfold YoutubeSearch.
  destruct (youtube_search w (t_calls st) q); intros [= _ <-]; reflexivity.
Qed.

Lemma keeps_set_item key v :
  In key written_columns -> key <> "official" -> keeps (set_item key v).
Proof. intros Hin Hne st r st' [= _ <-]. cbn. exact (R_set key v _ Hin Hne). Qed.

Lemma keeps_score_result result : keeps (score_result w result).
Proof.
  apply keeps_same_track. intros st r st' E.
  destruct (score_result_run U w result st) as [msgs Hrun]. rewrite Hrun in E.
  injection E as _ <-. reflexivity.
Qed.

Lemma keeps_store res_idx c : keeps (store res_idx c).
Proof.
  unfold store.
  repeat (apply keeps_bind; [|intros ?]);
    try (apply keeps_set_item; [unfold written_columns, best_columns; cbn; tauto|discriminate]).
  destruct (check_official c); [|apply keeps_ret].
  intros st r st' [= _ <-]. cbn. apply R_official.
Qed.

Lemma keeps_keep_best res_idx c : keeps (keep_best res_idx c).
Proof.
  unfold keep_best, is_better. apply keeps_bind.
  - destruct (Nat.eqb res_idx 0); [apply keeps_ret|].
    apply keeps_bind; [apply keeps_get_number|intros; apply keeps_ret].
  - intros [|]; [apply keeps_store|apply keeps_ret].
Qed.

Lemma keeps_scan results : forall res_idx, keeps (scan w res_idx results).
Proof.
  induction results as [|result rest IH]; intros res_idx; cbn [scan].
  - apply keeps_ret.
  - apply keeps_bind; [apply keeps_score_result|intros c].
    apply keeps_bind; [apply keeps_keep_best|intros _].
    apply keeps_bind; [apply keeps_get_number|intros best].
    destruct (Py.early_exit <? best)%float; [apply keeps_ret|apply IH].
Qed.

Lemma keeps_once : keeps (extract_youtube_link_once w).
Proof.
  unfold extract_youtube_link_once.
  apply keeps_bind; [apply keeps_get_text|intros artists].
  apply keeps_bind; [apply keeps_get_text|intros song_name].
  apply keeps_bind; [apply keeps_search|intros results_1].
  apply keeps_bind; [apply keeps_search|intros results_2].
  apply keeps_bind; [apply keeps_set_item; [cbn; tauto|discriminate]|intros _].
  apply keeps_bind; [apply keeps_get_text|intros artists'].
  apply keeps_bind; [apply keeps_set_item; [cbn; tauto|discriminate]|intros _].
  apply keeps_bind; [apply keeps_get_text|intros song_name'].
  apply keeps_bind; [apply keeps_set_item; [cbn; tauto|discriminate]|intros _].
  apply keeps_bind; [apply keeps_scan|intros _].
  apply keeps_bind; [apply keeps_get_item|intros best].
  apply keeps_bind.
  { destruct best; [apply keeps_raise|apply keeps_ret|apply keeps_ret]. }
  intros rounded.
  apply keeps_bind; [apply keeps_set_item; [cbn; tauto|discriminate]|intros _].
  apply keeps_ret.
Qed.

Lemma keeps_retrying {A} more (f : Task A) : keeps f -> keeps (retrying more f).
Proof.
  intros Hf. induction more as [|k IH]; intros st r st'; cbn [retrying];
    destruct (f st) as [[e|a] st1] eqn:E; intros E2.
  - injection E2 as _ <-. exact (Hf _ _ _ E).
  - injection E2 as _ <-. exact (Hf _ _ _ E).
  - exact (R_trans _ _ _ (Hf _ _ _ E) (IH _ _ _ E2)).
  - injection E2 as _ <-. exact (Hf _ _ _ E).
Qed.

Lemma keeps_extract : keeps (extract_youtube_link w).
Proof. apply keeps_retrying, keeps_once. Qed.
End TrackRelation.

(** X8: Whatever the world answers and however the call ends, an extraction
    leaves every column it does not write as it was: the key, the two input
    columns and every pass-through column. *)
Theorem extraction_leaves_other_columns (U : UnicodeData) (w : World)
    (key : string) (st : task) (r : exn + bool) (st' : task) :
  ~ In key written_columns ->
  extract_youtube_link w st = (r, st') ->
  t_track st' !! key = t_track st !! key.
Proof.
  intros Hkey Hrun.
  apply (keeps_extract w (fun a b => b !! key = a !! key)) in Hrun; [exact Hrun| | | |].
  - reflexivity.
  - intros a b c Hab Hbc. congruence.
  - intros k v tr Hin _. apply lookup_insert_ne. intros ->. contradiction.
  - intros tr. apply lookup_insert_ne. intros <-. apply Hkey. unfold written_columns, best_columns.
    cbn. tauto.
Qed.

Lemma extraction_leaves_other_columns_witness :
  t_track (snd (@extract_youtube_link ascii_only flaky (task0 daft_punk))) !! "isrc"
  = t_track (task0 daft_punk) !! "isrc".
Proof.
  apply (extraction_leaves_other_columns ascii_only flaky "isrc" (task0 daft_punk)
           (fst (@extract_youtube_link ascii_only flaky (task0 daft_punk)))).
  - unfold written_columns, best_columns. cbn. intuition discriminate.
  - apply surjective_pairing.
Defined.

(** X9: The "official" flag is only ever set: once a track holds "TRUE" there,
    an extraction leaves it so, also when the result finally stored does not
    mention "official". *)
Theorem official_flag_is_never_cleared (U : UnicodeData) (w : World)
    (st : task) (r : exn + bool) (st' : task) :
  t_track st !! "official" = Some official_true ->
  extract_youtube_link w st = (r, st') ->
  t_track st' !! "official" = Some official_true.
Proof.
  intros Hflag Hrun.
  apply (keeps_extract w (fun a b => a !! "official" = Some official_true ->
                                     b !! "official" = Some official_true)) in Hrun.
  - exact (Hrun Hflag).
  - auto.
  - auto.
  - intros k v tr _ Hne H. rewrite lookup_insert_ne by exact Hne. exact H.
  - intros tr _. apply lookup_insert_eq.
Qed.

Lemma official_flag_is_never_cleared_witness :
  t_track (snd (@extract_youtube_link ascii_only flaky
                  (task0 (<["official" := official_true]> queen)))) !! "official"
  = Some official_true.
Proof.
  apply (official_flag_is_never_cleared ascii_only flaky
           (task0 (<["official" := official_true]> queen))
           (fst (@extract_youtube_link ascii_only flaky
                   (task0 (<["official" := official_true]> queen))))).
  - apply lookup_insert_eq.
  - apply surjective_pairing.
Defined.

(** ** External calls *)

(** [m] makes at most [n] external calls. *)
Definition within {A} (n : nat) (m : Task A) : Prop :=
  forall st r st', m st = (r, st') -> t_calls st <= t_calls st' <= t_calls st + n.

Lemma within_weaken {A} n n' (m : Task A) : n <= n' -> within n m -> within n' m.
Proof. intros Hle H st r st' E. specialize (H st r st' E). lia. Qed.

Lemma within_same {A} (m : Task A) :
  (forall st r st', m st = (r, st') -> t_calls st' = t_calls st) -> within 0 m.
Proof. intros H st r st' E. rewrite (H st r st' E). lia. Qed.

Lemma within_ret {A} (a : A) : within 0 (mret a).
Proof. apply within_same. intros st r st' [= _ <-]. reflexivity. Qed.

Lemma within_raise {A} e : within 0 (@raise A e).
Proof. apply within_same. intros st r st' [= _ <-]. reflexivity. Qed.

Lemma within_bind {A B} n n' (m : Task A) (k : A -> Task B) :
  within n m ->
  (forall a, (exists st st', m st = (inr a, st')) -> within n' (k a)) ->
  within (n + n') (m ≫= k).
Proof.
  intros Hm Hk st r st'. rewrite bind_run.
  destruct (m st) as [[e|a] st1] eqn:E.
  - intros [= _ <-]. specialize (Hm _ _ _ E). lia.
  - intros E2. specialize (Hm _ _ _ E).
    assert (Hka : within n' (k a)) by (apply Hk; eauto).
    specialize (Hka _ _ _ E2). lia.
Qed.

Lemma within_get_item key : within 0 (get_item key).
Proof.
  apply within_same. intros st r st'. unfold get_item.
  destruct (t_track st !! key); intros [= _ <-]; reflexivity.
Qed.

Lemma within_get_text key : within 0 (get_text key).
Proof.
  apply (within_bind 0 0); [apply within_get_item|]. intros [s|x|z] _;
    [apply within_ret|apply within_raise|apply within_raise].
Qed.

Lemma within_get_number key : within 0 (get_number key).
Proof.
  apply (within_bind 0 0); [apply within_get_item|]. intros v _.
  destruct (as_number v); [apply within_ret|apply within_raise].
Qed.

Lemma within_set_item key v : within 0 (set_item key v).
Proof. apply within_same. intros st r st' [= _ <-]. reflexivity. Qed.

Section Calls.
Context {U : UnicodeData} (w : World).

Lemma within_search q n : within 1 (YoutubeSearch w q n).
Proof.
  intros st r st'. unfold YoutubeSearch.
  destruct (youtube_search w (t_calls st) q); intros [= _ <-]; cbn; lia.
Qed.

Lemma search_at_most q n results :
  (exists st st', YoutubeSearch w q n st = (inr results, st')) -> length results <= n.
Proof.
  intros (st & st' & E). unfold YoutubeSearch in E.
  destruct (youtube_search w (t_calls st) q); [discriminate|].
  injection E as <- _. rewrite length_take. lia.
Qed.

Lemma within_score_result result : within 1 (score_result w result).
Proof.
  intros st r st' E. destruct (score_result_run U w result st) as [msgs Hrun].
  rewrite Hrun in E. injection E as _ <-. cbn. lia.
Qed.

Lemma within_keep_best res_idx c : within 0 (keep_best res_idx c).
Proof.
  apply within_same. intros st r st'. rewrite keep_best_run.
  destruct (Nat.eqb res_idx 0); [intros [= _ <-]; reflexivity|].
  destruct (t_track st !! confidence_key) as [v|]; [|intros [= _ <-]; reflexivity].
  destruct (as_number v) as [best|]; [|intros [= _ <-]; reflexivity].
  destruct (best <? confidence_score c)%float; intros [= _ <-]; reflexivity.
Qed.

Lemma within_scan results : forall res_idx, within (length results) (scan w res_idx results).
Proof.
  induction results as [|result rest IH]; intros res_idx; cbn [scan length].
  - apply within_ret.
  - apply (within_bind 1 (length rest)); [apply within_score_result|intros c _].
    apply (within_bind 0 (length rest)); [apply within_keep_best|intros _ _].
    apply (within_bind 0 (length rest)); [apply within_get_number|intros best _].
    destruct (Py.early_exit <? best)%float; [|apply IH].
    apply (within_weaken 0); [lia|apply within_ret].
Qed.

Lemma within_once : within 32 (extract_youtube_link_once w).
Proof.
  unfold extract_youtube_link_once.
  apply (within_bind 0 32); [apply within_get_text|intros artists _].
  apply (within_bind 0 32); [apply within_get_text|intros song_name _].
  apply (within_bind 1 31); [apply within_search|intros results_1 H1].
  apply (within_bind 1 30); [apply within_search|intros results_2 H2].
  apply search_at_most in H1, H2.
  apply (within_bind 0 30); [apply within_set_item|intros _ _].
  apply (within_bind 0 30); [apply within_get_text|intros artists' _].
  apply (within_bind 0 30); [apply within_set_item|intros _ _].
  apply (within_bind 0 30); [apply within_get_text|intros song_name' _].
  apply (within_bind 0 30); [apply within_set_item|intros _ _].
  apply (within_bind 30 0).
  { apply (within_weaken (length (results_1 ++ results_2))); [|apply within_scan].
    rewrite length_app. lia. }
  intros _ _.
  apply (within_bind 0 0); [apply within_get_item|intros best _].
  apply (within_bind 0 0).
  { destruct best; [apply within_raise|apply within_ret|apply within_ret]. }
  intros rounded _.
  apply (within_bind 0 0); [apply within_set_item|intros _ _].
  apply within_ret.
Qed.

Lemma within_retrying {A} n more (f : Task A) :
  within n f -> within (S more * n) (retrying more f).
Proof.
  intros Hf. induction more as [|k IH]; intros st r st'; cbn [retrying];
    destruct (f st) as [[e|a] st1] eqn:E; intros E2; specialize (Hf _ _ _ E).
  - injection E2 as _ <-. lia.
  - injection E2 as _ <-. lia.
  - specialize (IH _ _ _ E2). lia.
  - injection E2 as _ <-. lia.
Qed.
End Calls.

(** X10: One track costs at most 160 external calls: an attempt makes two
    searches and fetches the metadata of at most thirty results, and there
    are at most five attempts. *)
Theorem extraction_call_budget (U : UnicodeData) (w : World) :
  (forall st r st', extract_youtube_link_once w st = (r, st') ->
                    t_calls st <= t_calls st' <= t_calls st + 32)
  /\ (forall st r st', extract_youtube_link w st = (r, st') ->
                       t_calls st <= t_calls st' <= t_calls st + 160).
Proof.
  split.
  - exact (within_once w).
  - exact (within_retrying 32 4 _ (within_once w)).
Qed.

(** ** The early exit *)

Lemma SFcompare_Eq_Lt_trans x y z :
  SFcompare x y = Some Eq -> SFcompare y z = Some Lt -> SFcompare x z = Some Lt.
Proof.
  destruct x as [sx|sx| |sx mx ex], y as [sy|sy| |sy my ey], z as [sz|sz| |sz mz ez];
    simpl; try discriminate; try (destruct sx); try (destruct sy); try (destruct sz);
    try discriminate; try reflexivity; intros H1 H2; f_equal;
    injection H1 as H1; injection H2 as H2;
    change (Pos.compare_cont Eq) with Pos.compare in *;
    destruct (Z.compare_spec ex ey), (Z.compare_spec ey ez), (Z.compare_spec ex ez);
    try discriminate; try reflexivity; try lia; subst;
    destruct (Pos.compare_spec mx my), (Pos.compare_spec my mz), (Pos.compare_spec mx mz);
    simpl in *; try discriminate; try reflexivity; try lia.
Qed.

Lemma SFcompare_Eq_not_Lt x y : SFcompare x y = Some Eq -> SFcompare y x <> Some Lt.
Proof.
  destruct x as [sx|sx| |sx mx ex], y as [sy|sy| |sy my ey];
    simpl; try discriminate; try (destruct sx); try (destruct sy);
    try discriminate; intros H1 H2;
    injection H1 as H1; injection H2 as H2;
    change (Pos.compare_cont Eq) with Pos.compare in *;
    destruct (Z.compare_spec ex ey), (Z.compare_spec ey ex);
    try discriminate; try lia; subst;
    destruct (Pos.compare_spec mx my), (Pos.compare_spec my mx);
    simpl in *; try discriminate; try lia.
Qed.

Lemma leb_cases x y :
  (x <=? y)%float = true ->
  SFcompare (Prim2SF x) (Prim2SF y) = Some Lt \/ SFcompare (Prim2SF x) (Prim2SF y) = Some Eq.
Proof.
  rewrite leb_spec. unfold SFleb.
  destruct (SFcompare (Prim2SF x) (Prim2SF y)) as [[| |]|]; auto; discriminate.
Qed.

Lemma leb_ltb_trans x y z :
  (x <=? y)%float = true -> (y <? z)%float = true -> (x <? z)%float = true.
Proof.
  intros Hxy Hyz. apply leb_cases in Hxy as [H|H].
  - apply (ltb_trans x y z); [apply ltb_Lt; exact H|exact Hyz].
  - apply ltb_Lt. apply ltb_Lt in Hyz. exact (SFcompare_Eq_Lt_trans _ _ _ H Hyz).
Qed.

Lemma leb_not_ltb x y : (x <=? y)%float = true -> (y <? x)%float = false.
Proof.
  intros Hxy. apply leb_cases in Hxy as [H|H].
  - apply ltb_asym, ltb_Lt, H.
  - destruct (y <? x)%float eqn:E; [|reflexivity].
    apply ltb_Lt in E. destruct (SFcompare_Eq_not_Lt _ _ H E).
Qed.

Section EarlyExit.
Context {U : UnicodeData} (w : World).
Context (tr0 : track) (calls0 : nat).
Context (result : SearchResult) (rest : list SearchResult) (c : scored).
Hypothesis c_exits : (Py.early_exit <? confidence_score c)%float = true.

Lemma scan_stops pre : forall res_idx st,
  in_step tr0 calls0 res_idx st ->
  (res_idx = 0
   \/ exists best, t_track st !! confidence_key = Some (VFloat best)
                   /\ (best <=? Py.early_exit)%float = true) ->
  (forall j r_j, pre !! j = Some r_j ->
     exists c_j, score_of w tr0 (calls0 + (res_idx + j)) r_j = inr c_j
                 /\ (confidence_score c_j <=? Py.early_exit)%float = true) ->
  score_of w tr0 (calls0 + (res_idx + length pre)) result = inr c ->
  exists st',
    scan w res_idx (pre ++ result :: rest) st = (inr tt, st')
    /\ t_calls st' = calls0 + (res_idx + length pre) + 1
    /\ t_track st' !! "result_idx" = Some (VInt (Z.of_nat (res_idx + length pre)))
    /\ t_track st' !! confidence_key = Some (VFloat (confidence_score c)).
Proof.
  induction pre as [|p pre IH]; intros res_idx st Hin Hbest Hpre Hc.
  - cbn [app length] in *. rewrite Nat.add_0_r in *.
    rewrite scan_cons.
    destruct (score_result_run U w result st) as [msgs ->].
    destruct Hin as (Hcalls & Hart & Hsong).
    rewrite (score_of_agree U w _ tr0 _ _ Hart Hsong), Hcalls, Hc.
    rewrite keep_best_run.
    assert (Hstore : (if Nat.eqb res_idx 0
                      then (inr tt, with_track (advance st 1 msgs)
                                      (overwritten res_idx c (t_track (advance st 1 msgs))))
                      else match t_track (advance st 1 msgs) !! confidence_key with
                           | None => (inl (KeyError confidence_key), advance st 1 msgs)
                           | Some v =>
                               match as_number v with
                               | None => (inl TypeError, advance st 1 msgs)
                               | Some best =>
                                   if (best <? confidence_score c)%float
                                   then (inr tt, with_track (advance st 1 msgs)
                                                   (overwritten res_idx c
                                                      (t_track (advance st 1 msgs))))
                                   else (inr tt, advance st 1 msgs)
                               end
                           end)
                     = (inr tt, with_track (advance st 1 msgs)
                                  (overwritten res_idx c (t_track (advance st 1 msgs))))).
    { destruct (Nat.eqb_spec res_idx 0) as [|Hne]; [reflexivity|].
      destruct Hbest as [|(best & Hb & Hle)]; [contradiction|].
      cbn [advance t_track]. rewrite Hb. cbn [as_number].
      rewrite (leb_ltb_trans _ _ _ Hle c_exits). reflexivity. }
    rewrite Hstore. rewrite get_number_run. cbn [with_track t_track].
    rewrite overwritten_confidence. cbn [as_number]. rewrite c_exits.
    eexists. split; [reflexivity|]. cbn [t_calls t_track advance with_track].
    split; [lia|]. split; [apply overwritten_result_idx|apply overwritten_confidence].
  - cbn [app length] in *. rewrite scan_cons.
    destruct (score_result_run U w p st) as [msgs ->].
    pose proof Hin as (Hcalls & Hart & Hsong).
    destruct (Hpre 0 p eq_refl) as (c_p & Hcp & Hle).
    rewrite Nat.add_0_r in Hcp.
    rewrite (score_of_agree U w _ tr0 _ _ Hart Hsong), Hcalls, Hcp.
    assert (Hnext : exists st2,
               keep_best res_idx c_p (advance st 1 msgs) = (inr tt, st2)
               /\ in_step tr0 calls0 (S res_idx) st2
               /\ exists best, t_track st2 !! confidence_key = Some (VFloat best)
                               /\ (best <=? Py.early_exit)%float = true).
    { rewrite keep_best_run. destruct (Nat.eqb_spec res_idx 0) as [->|Hne].
      - eexists. split; [reflexivity|]. split.
        + apply (in_step_overwritten _ _ _ (advance st 1 msgs)), in_step_next, Hin.
        + exists (confidence_score c_p). split; [apply overwritten_confidence|exact Hle].
      - destruct Hbest as [|(best & Hb & Hble)]; [contradiction|].
        cbn [advance t_track]. rewrite Hb. cbn [as_number].
        destruct (best <? confidence_score c_p)%float.
        + eexists. split; [reflexivity|]. split.
          * apply (in_step_overwritten _ _ _ (advance st 1 msgs)), in_step_next, Hin.
          * exists (confidence_score c_p). split; [apply overwritten_confidence|exact Hle].
        + eexists. split; [reflexivity|]. split; [apply in_step_next, Hin|].
          exists best. split; [exact Hb|exact Hble]. }
    destruct Hnext as (st2 & -> & Hin2 & best & Hb2 & Hle2).
    rewrite get_number_run, Hb2. cbn [as_number]. rewrite (leb_not_ltb _ _ Hle2).
    destruct (IH (S res_idx) st2 Hin2) as (st' & Hscan & Hcalls' & Hidx & Hconf).
    + right. exists best. split; assumption.
    + intros j r_j Hj. destruct (Hpre (S j) r_j Hj) as (c_j & Hcj & Hlej).
      exists c_j. split; [|exact Hlej]. rewrite <- Hcj. f_equal. lia.
    + rewrite <- Hc. f_equal. lia.
    + exists st'. split; [exact Hscan|].
      replace (res_idx + S (length pre)) with (S res_idx + length pre) by lia.
      split; [exact Hcalls'|]. split; [exact Hidx|exact Hconf].
Qed.
End EarlyExit.

(** X11: The scan stops at the first result that scores above 0.8: when the
    results before it score at most 0.8, it is stored, and the metadata of
    the results after it is never fetched. *)
Theorem scan_stops_at_first_good_result (U : UnicodeData) (w : World)
    (pre : list SearchResult) (result : SearchResult) (rest : list SearchResult)
    (c : scored) (st : task) :
  (forall j r_j, pre !! j = Some r_j ->
     exists c_j, score_of w (t_track st) (t_calls st + j) r_j = inr c_j
                 /\ (confidence_score c_j <=? Py.early_exit)%float = true) ->
  score_of w (t_track st) (t_calls st + length pre) result = inr c ->
  (Py.early_exit <? confidence_score c)%float = true ->
  exists st',
    scan w 0 (pre ++ result :: rest) st = (inr tt, st')
    /\ t_calls st' = t_calls st + length pre + 1
    /\ t_track st' !! "result_idx" = Some (VInt (Z.of_nat (length pre)))
    /\ t_track st' !! confidence_key = Some (VFloat (confidence_score c)).
Proof.
  intros Hpre Hc Hexit.
  destruct (scan_stops w (t_track st) (t_calls st) result rest c Hexit pre 0 st)
    as (st' & Hscan & Hcalls & Hidx & Hconf).
  - unfold in_step. repeat split. lia.
  - left. reflexivity.
  - exact Hpre.
  - exact Hc.
  - exists st'. repeat split; assumption.
Qed.

Lemma scan_stops_at_first_good_result_witness :
  exists st',
    @scan ascii_only flaky 0 ([unrelated] ++ official_video :: [long_mix; unrelated])
      (task0 daft_punk) = (inr tt, st')
    /\ t_calls st' = t_calls (task0 daft_punk) + length [unrelated] + 1.
Proof.
  destruct (scan_stops_at_first_good_result ascii_only flaky [unrelated] official_video
              [long_mix; unrelated]
              {| youtube_url := youtube_url_prefix ++ url_suffix official_video;
                 artist_meta := text "dapunk"; artist_dist := 0;
                 song_name_meta := text "one more time"; song_name_dist := 0;
                 check_official := false; confidence_score := 1 |}
              (task0 daft_punk)) as (st' & Hscan & Hcalls & _).
  - intros [|[|j]] r_j Hj; try discriminate. injection Hj as <-.
    eexists. split; vm_compute; exact eq_refl.
  - vm_compute; exact eq_refl.
  - vm_compute; exact eq_refl.
  - exists st'. split; assumption.
Defined.

(** ** What a successful attempt stores *)

Lemma get_text_returns key st s st' :
  get_text key st = (inr s, st') -> st' = st /\ t_track st !! key = Some (VStr s).
Proof.
  rewrite get_text_run. destruct (t_track st !! key) as [[x|x|x]|]; try discriminate.
  intros [= -> ->]. auto.
Qed.

Lemma set_item_returns key v st u st' :
  set_item key v st = (inr u, st') -> st' = with_track st (<[key := v]> (t_track st)).
Proof. intros [= _ <-]. reflexivity. Qed.

Lemma search_returns (w : World) q n st results st' :
  YoutubeSearch w q n st = (inr results, st') ->
  exists l, youtube_search w (t_calls st) q = inr l /\ results = take n l
            /\ st' = {| t_track := t_track st; t_calls := S (t_calls st); t_log := t_log st |}.
Proof.
  unfold YoutubeSearch. destruct (youtube_search w (t_calls st) q) as [e|l]; [discriminate|].
  intros [= <- <-]. eauto.
Qed.

Lemma overwritten_url res_idx c tr :
  overwritten res_idx c tr !! "youtube_url" = Some (VStr (youtube_url c)).
Proof. unfold overwritten. rewrite lookup_insert_ne by done. apply lookup_insert_eq. Qed.

Lemma score_of_url (U : UnicodeData) w tr calls r c :
  score_of w tr calls r = inr c -> youtube_url c = youtube_url_prefix ++ url_suffix r.
Proof.
  unfold score_of.
  destruct (score_result w r {| t_track := tr; t_calls := calls; t_log := [] |})
    as [res sx] eqn:Hrun.
  cbn [fst]. intros ->. unfold score_result in Hrun.
  apply bind_returns in Hrun as (meta & sa & _ & Hrun).
  apply bind_returns in Hrun as (duration & sb & _ & Hrun).
  apply bind_returns in Hrun as (m1 & sc & _ & Hrun).
  apply bind_returns in Hrun as (m2 & sd & _ & Hrun).
  apply bind_returns in Hrun as (m3 & se & _ & Hrun).
  apply bind_returns in Hrun as (ar & sf & _ & Hrun).
  destruct (get_asymmetric_token_distance (cs ar) (cs m3)) as [ad am].
  apply bind_returns in Hrun as (so & sg & _ & Hrun).
  destruct (get_asymmetric_token_distance (cs so) (cs m3)) as [sd' sm].
  apply bind_returns in Hrun as (conf & sh & _ & Hrun).
  apply ret_returns in Hrun as [<- _]. reflexivity.
Qed.

Section Stored.
Context {U : UnicodeData} (w : World).
Context (tr0 : track) (calls0 : nat) (all : list SearchResult).

(** The track is one that a stored result of the list left. *)
Definition stored_form (st : task) : Prop :=
  exists i r c tr,
    all !! i = Some r /\ score_of w tr0 (calls0 + i) r = inr c
    /\ t_track st = overwritten i c tr.

Lemma scan_stored rest : forall pre st st',
  all = pre ++ rest ->
  in_step tr0 calls0 (length pre) st -> (length pre = 0 \/ stored_form st) ->
  scan w (length pre) rest st = (inr tt, st') ->
  (all = [] /\ st' = st) \/ stored_form st'.
Proof.
  induction rest as [|result rest IH]; intros pre st st' Hall Hin Hform Hscan.
  - cbn in Hscan. injection Hscan as <-. rewrite app_nil_r in Hall. subst pre.
    destruct Hform as [Hlen|Hform]; [left|right; exact Hform].
    split; [|reflexivity]. destruct all; [reflexivity|discriminate].
  - right.
    assert (Hk : all !! length pre = Some result)
      by (rewrite Hall; apply list_lookup_middle; reflexivity).
    rewrite scan_cons in Hscan.
    destruct (score_result_run U w result st) as [msgs Hsc]. rewrite Hsc in Hscan.
    pose proof Hin as (Hcalls & Hart & Hsong).
    rewrite (score_of_agree U w _ tr0 _ _ Hart Hsong), Hcalls in Hscan.
    destruct (score_of w tr0 (calls0 + length pre) result) as [e|c] eqn:Hc; [discriminate|].
    destruct (keep_best (length pre) c (advance st 1 msgs)) as [[e|[]] st2] eqn:Hkeep;
      [discriminate|].
    assert (Hst2 : in_step tr0 calls0 (S (length pre)) st2 /\ stored_form st2).
    { rewrite keep_best_run in Hkeep.
      assert (Hnew : in_step tr0 calls0 (S (length pre))
                       (with_track (advance st 1 msgs)
                          (overwritten (length pre) c (t_track (advance st 1 msgs))))
                     /\ stored_form (with_track (advance st 1 msgs)
                          (overwritten (length pre) c (t_track (advance st 1 msgs))))).
      { split.
        - apply (in_step_overwritten _ _ _ (advance st 1 msgs)), in_step_next, Hin.
        - exists (length pre), result, c, (t_track (advance st 1 msgs)). auto. }
      destruct (Nat.eqb_spec (length pre) 0) as [Hz|Hnz].
      - injection Hkeep as <-. exact Hnew.
      - destruct Hform as [|Hform]; [contradiction|].
        destruct (t_track (advance st 1 msgs) !! confidence_key) as [v|]; [|discriminate].
        destruct (as_number v) as [best|]; [|discriminate].
        destruct (best <? confidence_score c)%float; injection Hkeep as <-.
        + exact Hnew.
        + split; [apply in_step_next, Hin|exact Hform]. }
    destruct Hst2 as [Hin2 Hform2].
    destruct (get_number confidence_key st2) as [[e|best] st3] eqn:Hget; [discriminate|].
    assert (st3 = st2) as ->.
    { rewrite get_number_run in Hget. destruct (t_track st2 !! confidence_key) as [v|];
        [|discriminate]. destruct (as_number v); [|discriminate]. injection Hget as _ <-.
      reflexivity. }
    destruct (Py.early_exit <? best)%float.
    + injection Hscan as <-. exact Hform2.
    + specialize (IH (pre ++ [result]) st2 st').
      rewrite length_app, Nat.add_1_r in IH.
      destruct IH as [[Hnil _]|Hdone].
      * rewrite Hall, <- app_assoc. reflexivity.
      * exact Hin2.
      * right. exact Hform2.
      * exact Hscan.
      * rewrite Hnil in Hk. discriminate.
      * exact Hdone.
Qed.
End Stored.

(** The first query of an attempt. *)
Definition search_terms_of (artists song_name : str) : str :=
  artists ++ text " " ++ song_name ++ text " official".

(** X12: An attempt that succeeds on a non-empty result list returns [True] and
    leaves the track with the columns of one result [i] of the list -- index,
    address, distances and matched texts all of that result -- and with its
    score rounded to two decimals as the confidence; that result either
    scored above 0.8, or no result of the list scored above it. *)
Theorem successful_attempt_stores_the_best (U : UnicodeData) (w : World)
    (st : task) (b : bool) (st' : task) (artists song_name : str)
    (l1 l2 : list SearchResult) :
  t_track st !! "artists" = Some (VStr artists) ->
  t_track st !! "song_name" = Some (VStr song_name) ->
  youtube_search w (t_calls st) (search_terms_of artists song_name) = inr l1 ->
  youtube_search w (S (t_calls st)) (ct (search_terms_of artists song_name)) = inr l2 ->
  take 15 l1 ++ take 15 l2 <> [] ->
  extract_youtube_link_once w st = (inr b, st') ->
  b = true
  /\ exists i r c tr,
       (take 15 l1 ++ take 15 l2) !! i = Some r
       /\ score_of w (t_track st) (t_calls st + 2 + i) r = inr c
       /\ youtube_url c = youtube_url_prefix ++ url_suffix r
       /\ t_track st'
          = <[confidence_key := VFloat (Py.round2 (confidence_score c))]> (overwritten i c tr)
       /\ ((Py.early_exit <? confidence_score c)%float = true
           \/ forall j r_j c_j,
                (take 15 l1 ++ take 15 l2) !! j = Some r_j ->
                score_of w (t_track st) (t_calls st + 2 + j) r_j = inr c_j ->
                (confidence_score c <? confidence_score c_j)%float = false).
Proof.
  intros Hart Hsong Hs1 Hs2 Hne Hrun.
  unfold extract_youtube_link_once in Hrun.
  apply bind_returns in Hrun as (a1 & s1 & Ha1 & Hrun).
  apply get_text_returns in Ha1 as [-> Ha1]. rewrite Hart in Ha1. injection Ha1 as <-.
  apply bind_returns in Hrun as (a2 & s2 & Ha2 & Hrun).
  apply get_text_returns in Ha2 as [-> Ha2]. rewrite Hsong in Ha2. injection Ha2 as <-.
  apply bind_returns in Hrun as (r1 & s3 & Hr1 & Hrun).
  apply search_returns in Hr1 as (l1' & Hl1 & -> & ->).
  fold (search_terms_of artists song_name) in Hl1, Hrun.
  rewrite Hs1 in Hl1. injection Hl1 as <-.
  apply bind_returns in Hrun as (r2 & s4 & Hr2 & Hrun).
  apply search_returns in Hr2 as (l2' & Hl2 & -> & ->). cbn [t_calls] in Hl2.
  rewrite Hs2 in Hl2. injection Hl2 as <-.
  apply bind_returns in Hrun as (u1 & s5 & Hu1 & Hrun).
  apply set_item_returns in Hu1. subst s5.
  apply bind_returns in Hrun as (a3 & s6 & Ha3 & Hrun).
  apply get_text_returns in Ha3 as [-> Ha3].
  apply bind_returns in Hrun as (u2 & s7 & Hu2 & Hrun).
  apply set_item_returns in Hu2. subst s7.
  apply bind_returns in Hrun as (a4 & s8 & Ha4 & Hrun).
  apply get_text_returns in Ha4 as [-> Ha4].
  apply bind_returns in Hrun as (u3 & s9 & Hu3 & Hrun).
  apply set_item_returns in Hu3. subst s9.
  apply bind_returns in Hrun as (u4 & s10 & Hscan & Hrun).
  destruct u4.
  apply bind_returns in Hrun as (best & s11 & Hbest & Hrun).
  apply bind_returns in Hrun as (rounded & s12 & Hround & Hrun).
  apply bind_returns in Hrun as (u5 & s13 & Hu5 & Hrun).
  apply set_item_returns in Hu5. subst s13.
  injection Hrun as <- <-. split; [reflexivity|].
  set (results := take 15 l1 ++ take 15 l2) in *.
  match type of Hscan with scan w 0 results ?s = _ => set (st1 := s) in * end.
  assert (Hin : in_step (t_track st) (t_calls st + 2) (length (@nil SearchResult)) st1).
  { unfold in_step, st1. cbn [t_calls t_track with_track length].
    rewrite !lookup_insert_ne by done. repeat split. lia. }
  destruct (scan_keeps_best w (t_track st) (t_calls st + 2) results results [] st1 s10
              eq_refl Hin (or_introl eq_refl) Hscan) as [[Hnil _]|(i & c & Hholds & Hend)];
    [contradiction|].
  destruct (scan_stored w (t_track st) (t_calls st + 2) results results [] st1 s10
              eq_refl Hin (or_introl eq_refl) Hscan)
    as [[Hnil _]|(i' & r' & c' & tr & Hr' & Hc' & Htrack)]; [contradiction|].
  destruct Hholds as ((r & Hr & Hc) & Hidx & Hconf).
  rewrite Htrack, overwritten_result_idx in Hidx. injection Hidx as Hi.
  apply Nat2Z.inj in Hi. subst i'. rewrite Hr in Hr'. injection Hr' as <-.
  rewrite Hc in Hc'. injection Hc' as <-.
  unfold get_item in Hbest. unfold confidence_key in Hconf. rewrite Hconf in Hbest. injection Hbest as <- <-.
  cbn [round_item] in Hround. injection Hround as <- <-.
  exists i, r, c, tr. split; [exact Hr|]. split; [exact Hc|]. split.
  - exact (score_of_url U w _ _ _ _ Hc).
  - split.
    + cbn [with_track t_track]. rewrite Htrack. reflexivity.
    + destruct Hend as [Hexit|Hun]; [left; exact Hexit|right].
      intros j r_j c_j Hrj Hcj. apply (Hun j r_j c_j); [|exact Hrj|exact Hcj].
      exact (lookup_lt_Some _ _ _ Hrj).
Qed.

Lemma successful_attempt_stores_the_best_witness :
  fst (@extract_youtube_link_once ascii_only flaky (task0 daft_punk)) = inr true.
Proof.
  destruct (@extract_youtube_link_once ascii_only flaky (task0 daft_punk)) as [[e|b] st'] eqn:E.
  - exfalso. revert E. vm_compute. discriminate.
  - destruct (successful_attempt_stores_the_best ascii_only flaky (task0 daft_punk) b st'
                (text "Daft Punk") (text "One More Time") [official_video] [official_video])
      as [-> _]; try exact E; try (vm_compute; exact eq_refl); try (vm_compute; discriminate).
Defined.


(** ** Retrying *)

(** The state after [k] attempts in a row have failed, if they have. *)
Fixpoint after_failures {A} (k : nat) (f : Task A) (st : task) : option task :=
  match k with
  | O => Some st
  | S k' =>
      match f st with
      | (inl _, st') => after_failures k' f st'
      | (inr _, _) => None
      end
  end.

Lemma retrying_returns_iff {A} more (f : Task A) : forall st a st',
  retrying more f st = (inr a, st') <->
  exists k s, k <= more /\ after_failures k f st = Some s /\ f s = (inr a, st').
Proof.
  induction more as [|m IH]; intros st a st'; cbn [retrying].
  - destruct (f st) as [[e|a0] st0] eqn:E; split.
    + discriminate.
    + intros (k & s & Hk & Hs & Hf). assert (k = 0) as -> by lia.
      cbn in Hs. injection Hs as <-. congruence.
    + intros [= -> ->]. exists 0, st. repeat split; [lia|exact E].
    + intros (k & s & Hk & Hs & Hf). assert (k = 0) as -> by lia.
      cbn in Hs. injection Hs as <-. congruence.
  - destruct (f st) as [[e|a0] st0] eqn:E; split.
    + intros H. apply IH in H as (k & s & Hk & Hs & Hf).
      exists (S k), s. split; [lia|]. split; [|exact Hf]. cbn. rewrite E. exact Hs.
    + intros (k & s & Hk & Hs & Hf). apply IH.
      destruct k as [|k]; cbn in Hs.
      * injection Hs as <-. congruence.
      * rewrite E in Hs. exists k, s. split; [lia|]. split; assumption.
    + intros [= -> ->]. exists 0, st. repeat split; [lia|exact E].
    + intros (k & s & Hk & Hs & Hf). destruct k as [|k]; cbn in Hs.
      * injection Hs as <-. congruence.
      * rewrite E in Hs. discriminate.
Qed.

Lemma retrying_raises_iff {A} more (f : Task A) : forall st e st',
  retrying more f st = (inl e, st') <->
  exists s last, after_failures more f st = Some s /\ f s = (inl last, st')
                 /\ e = RetryError last.
Proof.
  induction more as [|m IH]; intros st e st'; cbn [retrying after_failures].
  - destruct (f st) as [[e0|a0] st0] eqn:E; split.
    + intros [= <- <-]. exists st, e0. auto.
    + intros (s & last & [= <-] & Hf & ->). congruence.
    + discriminate.
    + intros (s & last & [= <-] & Hf & ->). congruence.
  - destruct (f st) as [[e0|a0] st0] eqn:E; split.
    + intros H. apply IH in H. exact H.
    + intros H. apply IH. exact H.
    + discriminate.
    + intros (s & last & Hs & _). discriminate.
Qed.

(** X13: The decorated function returns what the first successful attempt of
    five returns, run in the state the failed attempts before it left (the
    fields they wrote stay); and when five attempts in a row fail it
    raises [RetryError] around the last exception, in the state the fifth
    left. *)
Theorem extraction_retries_five_times (U : UnicodeData) (w : World) (st st' : task) :
  (forall b,
      extract_youtube_link w st = (inr b, st') <->
      exists k s, k <= 4 /\ after_failures k (extract_youtube_link_once w) st = Some s
                  /\ extract_youtube_link_once w s = (inr b, st'))
  /\ (forall e,
      extract_youtube_link w st = (inl e, st') <->
      exists s last, after_failures 4 (extract_youtube_link_once w) st = Some s
                     /\ extract_youtube_link_once w s = (inl last, st')
                     /\ e = RetryError last).
Proof.
  split; intros x.
  - apply retrying_returns_iff.
  - apply retrying_raises_iff.
Qed.

(* ================================================================== *)
(** * More of loading and saving *)

Lemma existsb_str_eqb k l : existsb (str_eqb k) l = true <-> In k l.
Proof.
  rewrite existsb_exists. unfold str_eqb. split.
  - intros (x & Hx & Heq). apply bool_decide_eq_true in Heq. subst x. exact Hx.
  - intros H. exists k. split; [exact H|]. apply bool_decide_eq_true. reflexivity.
Qed.

(** The rows of [df] whose key is not among [labels]. *)
Definition rows_without (labels : list str) (df : DataFrame) : DataFrame :=
  List.filter (fun r => negb (existsb (str_eqb (isrc r)) labels)) df.

(** X14: With resume enabled and an output file whose keys are all keys of the
    input, exactly the input rows whose key is in the output file are left
    out, the others are loaded in their order, and no error is logged. *)
Theorem resume_skips_rows_in_output (input_csv : list DataFrame) (df_output : DataFrame) :
  input_csv <> [] ->
  (forall k, In k (index df_output) -> In k (index (List.concat input_csv))) ->
  build_dataframe input_csv true (inr df_output) None
  = (inr (List.map to_dict (rows_without (index df_output) (List.concat input_csv))),
     [(INFO, MsgLoading); (INFO, MsgFound (length input_csv))])
  /\ forall r, In r (rows_without (index df_output) (List.concat input_csv)) <->
               In r (List.concat input_csv) /\ ~ In (isrc r) (index df_output).
Proof.
  intros Hne Hsub. split.
  - unfold build_dataframe, pd_concat. destruct input_csv as [|df rest]; [congruence|].
    unfold drop_rows.
    replace (forallb _ (index df_output)) with true; [reflexivity|].
    symmetry. apply forallb_forall. intros k Hk. apply existsb_str_eqb. exact (Hsub k Hk).
  - intros r. unfold rows_without. rewrite filter_In, negb_true_iff.
    rewrite <- not_true_iff_false, existsb_str_eqb. reflexivity.
Qed.

Lemma resume_skips_rows_in_output_witness :
  fst (build_dataframe
         [[sample_row "ISRC001" "Daft Punk" "One More Time";
           sample_row "ISRC002" "Nobody" "Nothing"]]
         true (inr [sample_row "ISRC001" "Daft Punk" "One More Time"]) None)
  = inr (List.map to_dict
           (rows_without (index [sample_row "ISRC001" "Daft Punk" "One More Time"])
              (List.concat [[sample_row "ISRC001" "Daft Punk" "One More Time";
                             sample_row "ISRC002" "Nobody" "Nothing"]]))).
Proof.
  destruct (resume_skips_rows_in_output
              [[sample_row "ISRC001" "Daft Punk" "One More Time";
                sample_row "ISRC002" "Nobody" "Nothing"]]
              [sample_row "ISRC001" "Daft Punk" "One More Time"]) as [Hb _].
  - discriminate.
  - vm_compute. tauto.
  - rewrite Hb. exact eq_refl.
Defined.

(** A track carries the key [k] as text. *)
Definition keyed (k : str) (t : track) : Prop := t !! "isrc" = Some (VStr k).

Lemma to_dict_keyed r : keyed (isrc r) (to_dict r).
Proof. unfold keyed, to_dict. apply lookup_insert_eq. Qed.

Lemma set_index_rows_keyed tracks : forall keys,
  Forall2 keyed keys tracks ->
  exists df, set_index_rows tracks = inr df /\ index df = keys
             /\ Forall2 (fun r t => columns r = delete "isrc" t) df tracks.
Proof.
  induction tracks as [|t rest IH]; intros keys H.
  - inversion H; subst. exists []. repeat split. constructor.
  - inversion H as [|k t' keys' rest' Hk Hrest]; subst.
    destruct (IH keys' Hrest) as (df & Hdf & Hidx & Hcols).
    exists ({| isrc := k; columns := delete "isrc" t |} :: df).
    cbn [set_index_rows]. unfold keyed in Hk. rewrite Hk, Hdf.
    split; [reflexivity|]. split.
    + unfold index in *. cbn [List.map isrc]. rewrite Hidx. reflexivity.
    + constructor; [reflexivity|exact Hcols].
Qed.

Lemma set_index_keyed tracks keys :
  tracks <> [] ->
  Forall2 keyed keys tracks ->
  exists df, set_index tracks = inr df /\ index df = keys
             /\ Forall2 (fun r t => columns r = delete "isrc" t) df tracks.
Proof.
  intros Hne H. destruct (set_index_rows_keyed tracks keys H) as (df & Hdf & Hrest).
  exists df. split; [|exact Hrest].
  destruct tracks; [congruence|exact Hdf].
Qed.

Lemma set_index_rows_to_dict df :
  Forall (fun r => columns r !! "isrc" = None) df ->
  set_index_rows (List.map to_dict df) = inr df.
Proof.
  induction 1 as [|r rest Hr _ IH]; [reflexivity|].
  cbn [List.map set_index_rows]. rewrite to_dict_keyed, IH.
  unfold to_dict. rewrite delete_insert_eq, delete_id by exact Hr.
  destruct r. reflexivity.
Qed.

(** X15: Saving after loading gives the frame back, for a frame that has a
    row: the dictionaries of the rows of a non-empty frame (none of which has
    a column named "isrc" beside its index) are indexed back into that frame,
    and written without resume they are the file written.  For the empty
    frame there is no round trip: [set_index] raises [KeyError]. *)
Theorem set_index_to_dict (df : DataFrame) (output_csv : exn + DataFrame) :
  df <> [] ->
  Forall (fun r => columns r !! "isrc" = None) df ->
  set_index (List.map to_dict df) = inr df
  /\ write_dataframe (List.map to_dict df) output_csv false
     = (inr true, Some df, [(INFO, MsgWriting)])
  /\ set_index (List.map to_dict []) = inl (KeyError "isrc")
  /\ write_dataframe (List.map to_dict []) output_csv false
     = (inl (KeyError "isrc"), None, []).
Proof.
  intros Hne Hcols.
  assert (Hset : set_index (List.map to_dict df) = inr df).
  { destruct df as [|r rest]; [congruence|].
    exact (set_index_rows_to_dict (r :: rest) Hcols). }
  split; [exact Hset|]. split; [|split; reflexivity].
  unfold write_dataframe. rewrite Hset. reflexivity.
Qed.

Lemma set_index_to_dict_witness :
  set_index (List.map to_dict [sample_row "ISRC001" "Daft Punk" "One More Time"])
  = inr [sample_row "ISRC001" "Daft Punk" "One More Time"].
Proof.
  apply (set_index_to_dict [sample_row "ISRC001" "Daft Punk" "One More Time"]
           (inl FileNotFoundError)).
  - discriminate.
  - repeat constructor.
Defined.

Definition occurrences (k : str) (keys : list str) : nat :=
  length (List.filter (str_eqb k) keys).

Lemma occurrences_In k keys : In k keys -> 1 <= occurrences k keys.
Proof.
  unfold occurrences. induction keys as [|x keys IH]; [intros []|].
  cbn [List.filter]. unfold str_eqb at 1. intros [->|H].
  - rewrite bool_decide_eq_true_2 by reflexivity. cbn. lia.
  - destruct (bool_decide (k = x)); cbn; specialize (IH H); lia.
Qed.

(** X16: On resume the new rows are written first and the rows of the output file
    after them, none removed: a key that is in both is written twice. *)
Theorem write_keeps_both_rows (list_of_dict : list track) (keys : list str)
    (df_output : DataFrame) (k : str) :
  list_of_dict <> [] ->
  Forall2 keyed keys list_of_dict ->
  In k keys -> In k (index df_output) ->
  exists df,
    write_dataframe list_of_dict (inr df_output) true
    = (inr true, Some (df ++ df_output), [(INFO, MsgWriting)])
    /\ index df = keys
    /\ 2 <= occurrences k (index (df ++ df_output)).
Proof.
  intros Hne Hkeys Hk Hout.
  destruct (set_index_keyed list_of_dict keys Hne Hkeys) as (df & Hdf & Hidx & _).
  exists df. split; [|split; [exact Hidx|]].
  - unfold write_dataframe. rewrite Hdf. reflexivity.
  - pose proof (occurrences_In k keys Hk) as H1.
    pose proof (occurrences_In k _ Hout) as H2.
    replace (index (df ++ df_output)) with (keys ++ index df_output)
      by (rewrite <- Hidx; unfold index; symmetry; apply map_app).
    unfold occurrences in *. rewrite List.filter_app, length_app. lia.
Qed.

Lemma write_keeps_both_rows_witness :
  exists df,
    write_dataframe [daft_punk] (inr [sample_row "ISRC001" "Daft Punk" "One More Time"]) true
    = (inr true, Some (df ++ [sample_row "ISRC001" "Daft Punk" "One More Time"]),
       [(INFO, MsgWriting)]).
Proof.
  destruct (write_keeps_both_rows [daft_punk] [text "ISRC001"]
              [sample_row "ISRC001" "Daft Punk" "One More Time"] (text "ISRC001"))
    as (df & Hw & _).
  - discriminate.
  - constructor; [vm_compute; exact eq_refl|constructor].
  - left. reflexivity.
  - left. reflexivity.
  - exists df. exact Hw.
Defined.

(* ================================================================== *)
(** * A run from loading to saving *)

(** [b] is [a] but for the columns an extraction writes. *)
Definition same_inputs (a b : track) : Prop :=
  forall key, ~ In key written_columns -> b !! key = a !! key.

(** The rows of the output file that a resumed run writes after its own. *)
Definition carried_over (resume : bool) (output_csv : exn + DataFrame) : DataFrame :=
  match resume, output_csv with
  | true, inr df_output => df_output
  | _, _ => []
  end.

Lemma build_dataframe_rows input_csv resume output_csv subset tracks lg :
  build_dataframe input_csv resume output_csv subset = (inr tracks, lg) ->
  exists df, tracks = List.map to_dict df.
Proof.
  unfold build_dataframe. destruct (pd_concat input_csv) as [e|df]; [discriminate|].
  destruct resume; [destruct output_csv as [e|df_output]|].
  - intros [= <- _]. eauto.
  - destruct (drop_rows _ _); intros [= <- _]; eauto.
  - intros [= <- _]. eauto.
Qed.

Section Saved.
Context {U : UnicodeData} (w : World).

Lemma same_inputs_extract st r st' :
  extract_youtube_link w st = (r, st') -> same_inputs (t_track st) (t_track st').
Proof.
  intros Hrun. apply (keeps_extract w same_inputs) in Hrun; [exact Hrun| | | |].
  - intros tr key _. reflexivity.
  - intros a b c Hab Hbc key Hkey. rewrite (Hbc key Hkey). exact (Hab key Hkey).
  - intros k v tr Hin _ key Hkey. apply lookup_insert_ne. intros ->. contradiction.
  - intros tr key Hkey. apply lookup_insert_ne. intros <-. apply Hkey.
    unfold written_columns, best_columns. cbn. tauto.
Qed.

Lemma pool_map_same_inputs n tracks : forall st tracks' st',
  0 < n ->
  pool_map w n tracks st = (inr tt, tracks', st') ->
  Forall2 same_inputs tracks tracks'.
Proof.
  induction tracks as [|tr rest IH]; intros st tracks' st' Hn H.
  - cbn in H. injection H as <- _. constructor.
  - cbn [pool_map] in H.
    destruct (extract_youtube_link w (task_of tr st)) as [outcome t] eqn:Hex.
    destruct (perform_extraction_run w tr n st outcome t Hn Hex) as [lg Hp].
    rewrite Hp in H.
    destruct (pool_map w n rest _) as [[r rest'] st2] eqn:Hrest.
    injection H as -> <- _.
    constructor; [|exact (IH _ _ _ Hn Hrest)].
    exact (same_inputs_extract _ _ _ Hex).
Qed.
End Saved.

(** X17: A run that has something to process ends without an exception, whatever
    the searches answer: every loaded track is counted once, as succeeded or
    as failed, and the file written holds one row per loaded track, in the
    order of loading, under the same key and with every column that the
    extraction does not write as it was loaded; on resume the rows of the
    output file follow them. *)
Theorem nonempty_run_is_saved (U : UnicodeData) (w : World) (RESUME : bool)
    (input_csv : list DataFrame) (output_csv : exn + DataFrame)
    (tracks : list track) (lg : log) :
  build_dataframe input_csv RESUME output_csv None = (inr tracks, lg) ->
  tracks <> [] ->
  exists df,
    o_result (main w RESUME input_csv output_csv) = inr tt
    /\ o_written (main w RESUME input_csv output_csv)
       = Some (df ++ carried_over RESUME output_csv)
    /\ Forall2 (fun t r => t !! "isrc" = Some (VStr (isrc r))
                           /\ forall key, ~ In key written_columns -> key <> "isrc" ->
                                          columns r !! key = t !! key) tracks df
    /\ succeeded (o_counters (main w RESUME input_csv output_csv))
       + failed (o_counters (main w RESUME input_csv output_csv)) = length tracks.
Proof.
  intros Hb Hne.
  destruct (build_dataframe_rows _ _ _ _ _ _ Hb) as [df0 Hrows].
  assert (Hpos : 0 < length tracks) by (destruct tracks; [congruence|cbn; lia]).
  unfold main. rewrite Hb.
  destruct (Nat.ltb_spec 0 (length tracks)) as [_|Hzero]; [|lia].
  match goal with |- context [pool_map w ?n ?ts ?s] =>
    destruct (pool_map_returns w n ts s Hpos) as (tracks' & st' & Hpool & Hlen & _ & Hsf)
  end.
  rewrite Hpool.
  pose proof (pool_map_same_inputs w _ _ _ _ _ Hpos Hpool) as Hsame.
  assert (Hkeyed : Forall2 keyed (index df0) tracks').
  { subst tracks. clear -Hsame. revert tracks' Hsame.
    induction df0 as [|r df0 IH]; intros tracks' H; inversion H as [|a b l l' Hab Hrest]; subst.
    - constructor.
    - cbn. constructor; [|exact (IH _ Hrest)].
      unfold keyed. rewrite (Hab "isrc").
      + apply to_dict_keyed.
      + unfold written_columns, best_columns. cbn. intuition discriminate. }
  assert (Hsome : tracks' <> []).
  { intros ->. cbn in Hlen. lia. }
  destruct (set_index_keyed tracks' (index df0) Hsome Hkeyed) as (df & Hdf & Hidx & Hcols).
  assert (Hw : write_dataframe tracks' output_csv RESUME
               = (inr true, Some (df ++ carried_over RESUME output_csv),
                  (if RESUME then match output_csv with
                                  | inr _ => [] | inl _ => [(ERROR, MsgCannotResume)] end
                   else []) ++ [(INFO, MsgWriting)])).
  { unfold write_dataframe.
    rewrite Hdf. destruct RESUME; [destruct output_csv|]; cbn [carried_over];
      rewrite ?app_nil_r; reflexivity. }
  rewrite Hw.
  assert (Hdiv : forall x, exists q, float_truediv x (length tracks) = inr q).
  { intros x. unfold float_truediv. destruct (Nat.eqb_spec (length tracks) 0); [lia|eauto]. }
  match goal with |- context [float_truediv ?x (length tracks)] =>
    destruct (Hdiv x) as [q Hq]; rewrite Hq end.
  exists df. cbn [o_result o_written o_counters r_counters].
  split; [reflexivity|]. split; [reflexivity|]. split.
  - subst tracks. clear -Hsame Hcols Hidx.
    revert tracks' df Hsame Hcols Hidx.
    induction df0 as [|r0 df0 IH]; intros tracks' df Hsame Hcols Hidx;
      inversion Hsame as [|a b l l' Hab Hrest]; subst;
      inversion Hcols as [|r t' dfr tr' Hc Hcs]; subst.
    + constructor.
    + cbn in Hidx. injection Hidx as Hk Hidx.
      constructor; [|exact (IH _ _ Hrest Hcs Hidx)].
      split.
      * rewrite Hk. apply to_dict_keyed.
      * intros key Hkey Hisrc. rewrite Hc, lookup_delete_ne by (intros <-; congruence).
        exact (Hab key Hkey).
  - cbn in Hsf. exact Hsf.
Qed.

Lemma nonempty_run_is_saved_witness :
  exists df,
    o_result (@main ascii_only flaky false [[sample_row "ISRC001" "Daft Punk" "One More Time"]]
                (inl FileNotFoundError)) = inr tt
    /\ o_written (@main ascii_only flaky false
                    [[sample_row "ISRC001" "Daft Punk" "One More Time"]]
                    (inl FileNotFoundError)) = Some df.
Proof.
  destruct (nonempty_run_is_saved ascii_only flaky false
              [[sample_row "ISRC001" "Daft Punk" "One More Time"]] (inl FileNotFoundError)
              (List.map to_dict [sample_row "ISRC001" "Daft Punk" "One More Time"])
              [(INFO, MsgLoading); (INFO, MsgFound 1)])
    as (df & Hr & Hw & _).
  - exact eq_refl.
  - discriminate.
  - exists df. split; [exact Hr|]. rewrite Hw. cbn [carried_over]. rewrite app_nil_r. reflexivity.
Defined.
